(** * nsight: composite-service signatures over an nmap port list

    A shallow embedding of [main.go]: the signature catalog, the three
    helpers [hasAll], [presentOptional] and [diff], the rendering done by
    [style] and [joinPorts], the report loop of [main], and the line parser
    [parseNmap].

    Conventions.
    - A Go [int] is a [Z] (64-bit platform); the only arithmetic on ports is
      the decimal conversion of [strconv.Atoi], whose saturation at
      [2^63 - 1] is written out.
    - [map[int]struct{}] is a [gset Z]: the code only inserts keys and tests
      membership, it never ranges over the map.
    - A Go [string] is a sequence of bytes, here a [string] of 8-bit [ascii].
    - Standard output is the string of everything printed so far.
    - [sort.Ints] sorts its argument in place; functions that call it return
      the slice as they leave it, next to their result.
    - The file system is a function from paths to the files that can be
      opened, each with the bytes it yields and whether its reading fails. *)

From Stdlib Require Import ZArith Ascii String DecimalString DecimalPos.
From stdpp Require Import gmap strings list sorting.

#[local] Set Warnings "-clear-no-such-hyp".

Local Open Scope Z_scope.

(** ** Data model *)

(** [type Signature struct { Name string; Required []int; Optional []int }].
    A nil slice and an empty slice are both the empty list: the code only
    takes their length and ranges over them. *)
Record Signature := mkSignature {
  Name : string;
  Required : list Z;
  Optional : list Z
}.

(** [knownSignatures()]: the built-in catalog, in declaration order. *)
Definition knownSignatures : list Signature := [
  mkSignature "SMB / NetBIOS file share" [139; 445] [];
  mkSignature "Active Directory Domain Controller"
    [53; 88; 389; 445; 464] [636; 3268; 3269; 5985; 9389];
  mkSignature "Windows RPC services (EPM + dynamic RPC)" [135] [];
  mkSignature "Windows Remote Management / WinRM" [5985] [5986];
  mkSignature "NFS server (rpcbind + nfsd)" [111; 2049] [20048; 4045; 4049];
  mkSignature "FTP" [21] [20];
  mkSignature "Mail stack (SMTP + POP)" [25; 110] [];
  mkSignature "Mail stack (SMTP + IMAP)" [25; 143] [];
  mkSignature "Mail stack (SMTP + IMAPS)" [25; 993] [];
  mkSignature "SIP / VoIP server" [5060] [];
  mkSignature "Network printer (JetDirect + LPD)" [515; 9100] [];
  mkSignature "Oracle Database" [1521] [1522; 2483; 2484];
  mkSignature "MySQL / MariaDB" [3306] [33060];
  mkSignature "Microsoft SQL Server" [1433] [];
  mkSignature "PostgreSQL" [5432] [5433];
  mkSignature "IBM Db2 Database" [50000] [50001; 50050];
  mkSignature "SAP NetWeaver Application Server"
    [3200; 3300] [3600; 8000; 8001; 3299];
  mkSignature "Elasticsearch" [9200] [9300];
  mkSignature "Splunk Enterprise" [8000; 8089; 9997] [8088];
  mkSignature "VMware vCenter Server" [443] [5480; 902];
  mkSignature "MongoDB Database" [27017] [27018; 27019];
  mkSignature "Redis" [6379] [26379; 16379];
  mkSignature "Apache Cassandra" [9042] [7000; 9160]
].

(** ** The matching helpers *)

(** [hasAll]: ranges over [req] and returns [false] at the first port that
    is not a key of [set]. *)
Fixpoint hasAll (set : gset Z) (req : list Z) : bool :=
  match req with
  | [] => true
  | p :: req' => if bool_decide (p ∈ set) then hasAll set req' else false
  end.

(** [presentOptional]: [present] starts nil and every port of [opt] that is
    a key of [set] is appended to it. *)
Definition presentOptional (set : gset Z) (opt : list Z) : list Z :=
  foldl (fun present p =>
           if bool_decide (p ∈ set) then present ++ [p] else present)
        [] opt.

(** [diff]: a first loop puts every element of [subset] in a fresh map [m],
    a second loop appends to [out] every element of [all] that is not a key
    of [m]. *)
Definition diff (all subset : list Z) : list Z :=
  let m : gset Z := foldl (fun m p => {[p]} ∪ m) ∅ subset in
  foldl (fun out p => if bool_decide (p ∈ m) then out else out ++ [p])
        [] all.

(** ** Rendering *)

Definition nl : string := String "010"%char "".
Definition ESC : string := String "027"%char "".

(** The ANSI style fragments. *)
Definition bold : string := ESC +:+ "[1m".
Definition green : string := ESC +:+ "[32m".
Definition yellow : string := ESC +:+ "[33m".
Definition cyan : string := ESC +:+ "[36m".
Definition faint : string := ESC +:+ "[2m".
Definition reset : string := ESC +:+ "[0m".

(** [strconv.Itoa]: the decimal digits of an integer, with a minus sign
    when it is negative. *)
Definition Itoa (p : Z) : string := NilZero.string_of_int (Z.to_int p).

(** [sort.Ints]: the ascending rearrangement of a slice of integers. *)
Definition sortInts (ports : list Z) : list Z := merge_sort Z.le ports.

Section Rendering.
(** The package variable [noColor], set once by [main] before anything is
    printed. *)
Variable noColor : bool.

(** [style]: the text alone when colour is off; otherwise the faint
    fragment, or else the bold fragment when [boldOn] followed by the
    colour when it is not empty, then the text and the reset fragment. *)
Definition style (text colour : string) (boldOn faintOn : bool) : string :=
  if noColor then text
  else
    let sb := "" in
    let sb :=
      if faintOn then sb +:+ faint
      else
        let sb := if boldOn then sb +:+ bold else sb in
        if bool_decide (colour ≠ "") then sb +:+ colour else sb in
    let sb := sb +:+ text in
    sb +:+ reset.

(** The loop and the [strings.Join] of [joinPorts], on a slice taken as
    it is. *)
Definition joinParts (ports : list Z) (colour : string)
    (boldOn faintOn : bool) : string :=
  String.concat ", "
    (map (fun p => style (Itoa p) colour boldOn faintOn) ports).

(** [joinPorts]: sorts [ports] in place, styles every port and joins the
    parts with a comma and a space. The second component is the caller's
    slice after the call. *)
Definition joinPorts (ports : list Z) (colour : string)
    (boldOn faintOn : bool) : string * list Z :=
  let ports := sortInts ports in
  (joinParts ports colour boldOn faintOn, ports).

(** ** The report of [main] *)

(** The body of [if hasAll(openPorts, sig.Required)], after [any = true]:
    what it prints, and the signature it leaves behind ([sig.Required]
    shares its array with the catalog entry and has been sorted). The
    slice [present] is sorted by [joinPorts] before [diff] reads it. *)
Definition printSignature (openPorts : gset Z) (sig : Signature)
    : string * Signature :=
  let header := style "▶" green true false in
  let service :=
    style ("Possible " +:+ Name sig +:+ " detected") cyan true false in
  let out := header +:+ " " +:+ service +:+ ": " in
  let '(s, required) := joinPorts (Required sig) green true false in
  let out := out +:+ "Required ports " +:+ s +:+ " are present" in
  let out :=
    if bool_decide (0 < length (Optional sig))%nat then
      let present := presentOptional openPorts (Optional sig) in
      let '(out, present) :=
        if bool_decide (0 < length present)%nat then
          let '(s, present) := joinPorts present yellow true false in
          (out +:+ ", optional ports " +:+ s +:+ " are also present",
           present)
        else (out, present) in
      let missing := diff (Optional sig) present in
      if bool_decide (0 < length missing)%nat then
        let '(s, _) := joinPorts missing "" false true in
        out +:+ ", optional ports " +:+ s +:+ " are missing"
      else out
    else out in
  (out +:+ nl, mkSignature (Name sig) required (Optional sig)).

(** The state of the [for] loop: the flag [any], standard output so far,
    and the catalog entries already visited, as the loop left them. *)
Definition loopState : Type := bool * string * list Signature.

(** One iteration of [for _, sig := range knownSignatures()]. *)
Definition loopBody (openPorts : gset Z) (st : loopState)
    (sig : Signature) : loopState :=
  let '(any, out, visited) := st in
  if hasAll openPorts sig.(Required) then
    let '(text, sig') := printSignature openPorts sig in
    (true, out +:+ text, visited ++ [sig'])
  else (any, out, visited ++ [sig]).

(** [main] from [len(openPorts) == 0] to its end, over a catalog given as
    an argument: standard output, and the catalog as the run leaves it. *)
Definition mainReport (catalog : list Signature) (openPorts : gset Z)
    : string * list Signature :=
  if bool_decide (size openPorts = 0%nat) then
    (style "No open ports found." yellow false false +:+ nl, catalog)
  else
    let '(any, out, catalog') :=
      foldl (loopBody openPorts) (false, "", []) catalog in
    let out :=
      if negb any then
        out +:+ style "No composite service signatures recognised."
                      yellow false false +:+ nl
      else out in
    (out +:+ nl, catalog').
End Rendering.

(** ** The parser *)

(** *** Library functions [parseNmap] calls, on bytes *)

Definition code (c : ascii) : N := N_of_ascii c.

(** [\d] of Go's [regexp]: an ASCII decimal digit. *)
Definition isDigit (c : ascii) : bool :=
  ((48 <=? code c) && (code c <=? 57))%N.

(** [\s] of Go's [regexp]: tab, line feed, form feed, carriage return and
    space (the vertical tab is not in the class). *)
Definition isReSpace (c : ascii) : bool :=
  match code c with
  | 9 | 10 | 12 | 13 | 32 => true
  | _ => false
  end%N.

(** [unicode.IsSpace], by encoded length. One byte: tab to carriage return,
    and space. *)
Definition isSpace1 (a : ascii) : bool :=
  ((9 <=? code a) && (code a <=? 13) || (code a =? 32))%N.

(** Two bytes: U+0085 and U+00A0. *)
Definition isSpace2 (a b : ascii) : bool :=
  ((code a =? 194) && ((code b =? 133) || (code b =? 160)))%N.

(** Three bytes: U+1680, U+2000 to U+200A, U+2028, U+2029, U+202F, U+205F
    and U+3000. *)
Definition isSpace3 (a b c : ascii) : bool :=
  ((code a =? 225) && (code b =? 154) && (code c =? 128)
   || (code a =? 226) && (code b =? 128)
      && ((128 <=? code c) && (code c <=? 138)
          || (code c =? 168) || (code c =? 169) || (code c =? 175))
   || (code a =? 226) && (code b =? 129) && (code c =? 159)
   || (code a =? 227) && (code b =? 128) && (code c =? 128))%N.

(** Removes white-space runes from the front of [s]. With [fromEnd] the
    string is read back to front, and so is each rune. A byte that starts no
    white-space rune stops the scan, whether or not it is valid UTF-8. *)
Fixpoint trimSpaces (fromEnd : bool) (s : string) : string :=
  match s with
  | String a s1 =>
    if isSpace1 a then trimSpaces fromEnd s1
    else
      match s1 with
      | String b s2 =>
        if (if fromEnd then isSpace2 b a else isSpace2 a b)
        then trimSpaces fromEnd s2
        else
          match s2 with
          | String c s3 =>
            if (if fromEnd then isSpace3 c b a else isSpace3 a b c)
            then trimSpaces fromEnd s3
            else s
          | EmptyString => s
          end
      | EmptyString => s
      end
  | EmptyString => s
  end.

(** [strings.TrimSpace]: leading, then trailing white space is removed. *)
Definition TrimSpace (s : string) : string :=
  String.rev (trimSpaces true (String.rev (trimSpaces false s))).

(** The longest run of digits at the front of [s], and what follows it. *)
Fixpoint spanDigits (s : string) : string * string :=
  match s with
  | String c s' =>
    if isDigit c then
      let '(ds, rest) := spanDigits s' in (String c ds, rest)
    else ("", s)
  | EmptyString => ("", "")
  end.

Fixpoint skipReSpace (s : string) : string :=
  match s with
  | String c s' => if isReSpace c then skipReSpace s' else s
  | EmptyString => s
  end.

Fixpoint stripPrefix (p s : string) : option string :=
  match p, s with
  | EmptyString, _ => Some s
  | String a p', String b s' =>
    if bool_decide (a = b) then stripPrefix p' s' else None
  | String _ _, EmptyString => None
  end.

(** [re.FindStringSubmatch(line)] for [re = ^(\d+)/tcp\s+open]: [None] for
    a nil result, otherwise the text of group 1, the only element the code
    reads. Both repetitions are greedy and are followed by a byte outside
    their class, so the match is found without backtracking. *)
Definition reFindStringSubmatch (line : string) : option string :=
  let '(ds, rest) := spanDigits line in
  if bool_decide (ds = "") then None
  else
    match stripPrefix "/tcp" rest with
    | Some (String c rest') =>
      if isReSpace c then
        match stripPrefix "open" (skipReSpace rest') with
        | Some _ => Some ds
        | None => None
        end
      else None
    | _ => None
    end.

Definition maxInt : Z := 2 ^ 63 - 1.

(** The loop [n = n*10 + int(ch)] over the digits of [s]. *)
Definition decimal (s : string) : Z :=
  foldl (fun n ch => n * 10 + (Z.of_N (code ch) - 48)) 0
        (String.list_ascii_of_string s).

(** [strconv.Atoi] on a string of digits, error dropped: below 19 digits
    the fast path returns the value; otherwise [ParseInt] returns the value
    when it fits 64 signed bits and the largest [int] when it does not.
    Group 1 of the pattern holds digits only, so the sign and syntax-error
    paths are not reached. *)
Definition Atoi (s : string) : Z :=
  if bool_decide (0 < String.length s < 19)%nat then decimal s
  else if bool_decide (decimal s ≤ maxInt) then decimal s else maxInt.

(** *** Reading the file *)

Inductive error :=
  | ErrOpen      (* [os.Open] failed *)
  | ErrTooLong   (* [bufio.ErrTooLong] *)
  | ErrRead.     (* a read of the open file failed *)

(** An open file, as the scanner sees it: the bytes it reads until the
    reader stops, and whether the reader stopped on an error other than end
    of file (a directory opens and fails at its first read, with no byte
    read). *)
Record file := mkFile {
  bytes : string;
  failed : bool
}.

Definition LF : ascii := "010"%char.
Definition CR : ascii := "013"%char.

(** The lines [bufio.ScanLines] cuts [data] into, before the carriage
    return is dropped: the bytes up to each line feed, and a last line
    without one when it is not empty. [cur] is the line being read. *)
Fixpoint splitLines (cur data : string) : list string :=
  match data with
  | String c data' =>
    if bool_decide (c = LF) then cur :: splitLines "" data'
    else splitLines (cur +:+ String c "") data'
  | EmptyString => if bool_decide (cur = "") then [] else [cur]
  end.

(** [dropCR]: one trailing carriage return is removed. *)
Fixpoint dropCR (s : string) : string :=
  match s with
  | String c EmptyString => if bool_decide (c = CR) then "" else s
  | String c s' => String c (dropCR s')
  | EmptyString => s
  end.

Definition MaxScanTokenSize : Z := 64 * 1024.

(** The tokens [s.Scan()] delivers and the final [s.Err()]: a line of
    [MaxScanTokenSize] bytes or more does not fit the buffer, and the scan
    stops there with [ErrTooLong]. *)
Fixpoint scanTokens (lines : list string) : list string * option error :=
  match lines with
  | [] => ([], None)
  | l :: lines' =>
    if bool_decide (MaxScanTokenSize ≤ Z.of_nat (String.length l)) then
      ([], Some ErrTooLong)
    else
      let '(tokens, err) := scanTokens lines' in (dropCR l :: tokens, err)
  end.

(** The body of [for s.Scan()]. *)
Definition scanStep (ports : gset Z) (text : string) : gset Z :=
  let line := TrimSpace text in
  match reFindStringSubmatch line with
  | Some m1 =>
    let p := Atoi m1 in
    if bool_decide (0 < p) then {[p]} ∪ ports else ports
  | None => ports
  end.

(** [parseNmap] once the file is open, on the bytes of the file. *)
Definition parseData (data : string) : gset Z * option error :=
  let '(tokens, err) := scanTokens (splitLines "" data) in
  (foldl scanStep ∅ tokens, err).

(** [parseNmap]: [fs] gives the files that can be opened. The nil map
    returned with an open error is the empty set. When a read fails the
    scanner still delivers the lines it holds, and [s.Err()] is the read
    error unless the scan had already stopped on a line too long. *)
Definition parseNmap (fs : string → option file) (path : string)
    : gset Z * option error :=
  match fs path with
  | None => (∅, Some ErrOpen)
  | Some f =>
    let '(ports, err) := parseData (bytes f) in
    (ports,
     match err with
     | Some e => Some e
     | None => if failed f then Some ErrRead else None
     end)
  end.

(** ** [main] *)

Inductive outcome :=
  | Usage                                   (* usage on stderr, exit status 1 *)
  | Fatal (path : string) (err : error)     (* [log.Fatalf], exit status 1 *)
  | Printed (stdout : string).              (* normal return *)

(** [main] from the return of [flag.Parse] on: [flagNoColor] is the parsed
    [--no-color] flag, [envNoColor] the value of [NO_COLOR], [args] the
    arguments left after the flags. *)
Definition main (flagNoColor : bool) (envNoColor : string)
    (args : list string) (fs : string → option file) : outcome :=
  let noColor := if bool_decide (envNoColor ≠ "") then true else flagNoColor in
  match args with
  | [path] =>
    match parseNmap fs path with
    | (_, Some err) => Fatal path err
    | (openPorts, None) =>
      Printed (mainReport noColor knownSignatures openPorts).1
    end
  | _ => Usage
  end.

(** ** The earlier copy of the program *)

(** The repository holds a second, earlier copy of the program. Its
    helpers [hasAll], [presentOptional], [diff] and [parseNmap] are the
    same text; it differs in the wording of the printed lines and in its
    catalog, which is the one below. *)
Module Earlier.
Definition knownSignatures : list Signature := [
  mkSignature "SMB / NetBIOS file share" [139; 445] [];
  mkSignature "Active Directory Domain Controller"
    [53; 88; 389; 445; 464] [636; 3268; 3269; 5985; 9389];
  mkSignature "Windows RPC services (EPM + dynamic RPC)" [135] [];
  mkSignature "NFS server (rpcbind + nfsd)" [111; 2049] [20048; 4045; 4049];
  mkSignature "FTP (control + data)" [20; 21] [];
  mkSignature "Mail stack (SMTP + POP)" [25; 110] [];
  mkSignature "Mail stack (SMTP + IMAP)" [25; 143] [];
  mkSignature "Mail stack (SMTP + IMAPS)" [25; 993] [];
  mkSignature "SIP / VoIP server" [5060] [];
  mkSignature "Network printer (JetDirect + LPD)" [515; 9100] []
].

(** The body of [if hasAll(openPorts, sig.Required)] in the earlier copy:
    a blank line before the header, the required ports on the header
    line, and one line for each optional clause. *)
Definition printSignature (noColor : bool) (openPorts : gset Z)
    (sig : Signature) : string * Signature :=
  let header := style noColor "▶" green true false in
  let service :=
    style noColor ("Possible " +:+ Name sig +:+ " detected")
          cyan true false in
  let out := nl +:+ header +:+ " " +:+ service +:+ ": " in
  let '(s, required) := joinPorts noColor (Required sig) green true false in
  let out := out +:+ "Required ports " +:+ s +:+ " are present" +:+ nl in
  let out :=
    if bool_decide (0 < length (Optional sig))%nat then
      let present := presentOptional openPorts (Optional sig) in
      let '(out, present) :=
        if bool_decide (0 < length present)%nat then
          let '(s, present) := joinPorts noColor present yellow true false in
          (out +:+ "Optional ports " +:+ s +:+ " are present" +:+ nl,
           present)
        else (out, present) in
      let missing := diff (Optional sig) present in
      if bool_decide (0 < length missing)%nat then
        let '(s, _) := joinPorts noColor missing "" false true in
        out +:+ "Optional ports " +:+ s +:+ " are missing" +:+ nl
      else out
    else out in
  (out, mkSignature (Name sig) required (Optional sig)).

Definition loopBody (noColor : bool) (openPorts : gset Z)
    (st : loopState) (sig : Signature) : loopState :=
  let '(any, out, visited) := st in
  if hasAll openPorts sig.(Required) then
    let '(text, sig') := printSignature noColor openPorts sig in
    (true, out +:+ text, visited ++ [sig'])
  else (any, out, visited ++ [sig]).

(** [main] of the earlier copy from [len(openPorts) == 0] to its end:
    nothing is printed after the loop when a signature has matched. *)
Definition mainReport (noColor : bool) (catalog : list Signature)
    (openPorts : gset Z) : string * list Signature :=
  if bool_decide (size openPorts = 0%nat) then
    (style noColor "No open ports found." yellow false false +:+ nl, catalog)
  else
    let '(any, out, catalog') :=
      foldl (loopBody noColor openPorts) (false, "", []) catalog in
    let out :=
      if negb any then
        out +:+ style noColor "No composite service signatures recognised."
                      yellow false false +:+ nl
      else out in
    (out, catalog').

(** [main] of the earlier copy, from the return of [flag.Parse] on: the
    same steps as the current [main], over the catalog above. *)
Definition main (flagNoColor : bool) (envNoColor : string)
    (args : list string) (fs : string → option file) : outcome :=
  let noColor := if bool_decide (envNoColor ≠ "") then true else flagNoColor in
  match args with
  | [path] =>
    match parseNmap fs path with
    | (_, Some err) => Fatal path err
    | (openPorts, None) =>
      Printed (mainReport noColor knownSignatures openPorts).1
    end
  | _ => Usage
  end.
End Earlier.

(** * Specification vocabulary *)

(** The line printed for one match, from the signature's name and the
    three port lists as they are shown: the clause for the optional ports
    present and the clause for those missing are left out when their list
    is empty. *)
Definition outcomeLine (noColor : bool) (name : string)
    (required present missing : list Z) : string :=
  style noColor "▶" green true false +:+ " "
  +:+ style noColor ("Possible " +:+ name +:+ " detected") cyan true false
  +:+ ": " +:+ "Required ports "
  +:+ joinParts noColor required green true false +:+ " are present"
  +:+ (match present with
       | [] => ""
       | _ => ", optional ports "
              +:+ joinParts noColor present yellow true false
              +:+ " are also present"
       end)
  +:+ (match missing with
       | [] => ""
       | _ => ", optional ports "
              +:+ joinParts noColor missing "" false true
              +:+ " are missing"
       end)
  +:+ nl.

(** The signatures of a catalog that a port set satisfies, in catalog
    order. *)
Definition matching (openPorts : gset Z) (catalog : list Signature)
    : list Signature :=
  filter (fun sig => hasAll openPorts (Required sig) = true) catalog.

(** A catalog entry after the loop has visited it. *)
Definition visit (noColor : bool) (openPorts : gset Z) (sig : Signature)
    : Signature :=
  if hasAll openPorts (Required sig)
  then (printSignature noColor openPorts sig).2
  else sig.

(** The two messages of [main] for a run that reports no signature. *)
Definition noOpenPorts (noColor : bool) : string :=
  style noColor "No open ports found." yellow false false +:+ nl.

Definition noneRecognised (noColor : bool) : string :=
  style noColor "No composite service signatures recognised."
        yellow false false +:+ nl.

(** Every byte of [s] satisfies [f]. *)
Fixpoint allChars (f : ascii → bool) (s : string) : bool :=
  match s with
  | String c s' => f c && allChars f s'
  | EmptyString => true
  end.

(** The line pattern, read as a decomposition: [line] is a run [ds] of one
    or more digits, then [/tcp], then one or more white-space bytes, then
    [open], then anything. *)
Definition startsOpenLine (line ds : string) : Prop :=
  ∃ ws rest,
    ds ≠ "" ∧ allChars isDigit ds = true
    ∧ ws ≠ "" ∧ allChars isReSpace ws = true
    ∧ line = ds +:+ "/tcp" +:+ ws +:+ "open" +:+ rest.

(** The lines the scanner hands to the loop of [parseNmap]. *)
Definition scanned (data : string) : list string :=
  (scanTokens (splitLines "" data)).1.

(** A string is plain when it holds no escape byte. *)
Definition plain (s : string) : bool :=
  allChars (fun c => negb (bool_decide (c = "027"%char))) s.

(** A line holds no line feed. *)
Definition noLF (s : string) : bool :=
  allChars (fun c => negb (bool_decide (c = LF))) s.

(** The file made of the given lines, each ended by a line feed. *)
Fixpoint unlines (lines : list string) : string :=
  match lines with
  | [] => ""
  | l :: lines' => l +:+ String LF (unlines lines')
  end.

(** A line of exactly [MaxScanTokenSize] bytes. *)
Definition longLine : string :=
  String.concat "" (replicate 4096 "0123456789abcdef").

(** An ASCII byte that is not white space. *)
Definition solid (c : ascii) : bool :=
  (code c <? 128)%N && negb (isSpace1 c).

(** The lines the earlier copy prints for one match, from the same
    name and port lists as [outcomeLine]. *)
Definition earlierLines (noColor : bool) (name : string)
    (required present missing : list Z) : string :=
  nl +:+ style noColor "▶" green true false +:+ " "
  +:+ style noColor ("Possible " +:+ name +:+ " detected") cyan true false
  +:+ ": " +:+ "Required ports "
  +:+ joinParts noColor required green true false +:+ " are present" +:+ nl
  +:+ (match present with
       | [] => ""
       | _ => "Optional ports "
              +:+ joinParts noColor present yellow true false
              +:+ " are present" +:+ nl
       end)
  +:+ (match missing with
       | [] => ""
       | _ => "Optional ports "
              +:+ joinParts noColor missing "" false true
              +:+ " are missing" +:+ nl
       end).



(** * Properties *)

(** ** The helpers as list and set operations *)

Lemma hasAll_true (set : gset Z) (req : list Z) :
  hasAll set req = true ↔ ∀ p, p ∈ req → p ∈ set.
Proof.
  induction req as [|q req IH]; simpl.
  - split; [intros _ p Hp; inversion Hp | done].
  - case_bool_decide as Hq.
    + rewrite IH. split.
      * intros H p [->|Hp]%elem_of_cons; auto.
      * intros H p Hp. apply H. by right.
    + split; [done|]. intros H. destruct Hq. apply H. by left.
Qed.

Lemma presentOptional_acc (set : gset Z) (opt acc : list Z) :
  foldl (fun present p =>
           if bool_decide (p ∈ set) then present ++ [p] else present)
        acc opt
  = acc ++ filter (.∈ set) opt.
Proof.
  revert acc. induction opt as [|p opt IH]; intros acc; simpl.
  - by rewrite app_nil_r.
  - rewrite IH, filter_cons. case_bool_decide; destruct (decide _); try done.
    by rewrite <-app_assoc.
Qed.

Lemma presentOptional_filter (set : gset Z) (opt : list Z) :
  presentOptional set opt = filter (.∈ set) opt.
Proof. unfold presentOptional. by rewrite presentOptional_acc. Qed.

Lemma diff_map_acc (subset : list Z) (m : gset Z) :
  foldl (fun m p => {[p]} ∪ m) m subset = list_to_set subset ∪ m.
Proof.
  revert m. induction subset as [|p subset IH]; intros m; simpl.
  - set_solver.
  - rewrite IH. set_solver.
Qed.

Lemma diff_out_acc (m : gset Z) (all acc : list Z) :
  foldl (fun out p => if bool_decide (p ∈ m) then out else out ++ [p])
        acc all
  = acc ++ filter (.∉ m) all.
Proof.
  revert acc. induction all as [|p all IH]; intros acc; simpl.
  - by rewrite app_nil_r.
  - rewrite IH, filter_cons. case_bool_decide; destruct (decide _); try done.
    by rewrite <-app_assoc.
Qed.

Lemma diff_filter (all subset : list Z) :
  diff all subset = filter (.∉ subset) all.
Proof.
  unfold diff. rewrite diff_map_acc, diff_out_acc. simpl.
  apply list_filter_iff. intros p. set_solver.
Qed.

Lemma diff_Permutation (all s1 s2 : list Z) :
  s1 ≡ₚ s2 → diff all s1 = diff all s2.
Proof.
  intros Hp. rewrite !diff_filter. apply list_filter_iff.
  intros p. by rewrite Hp.
Qed.

(** ** Matching *)

(** C1. [hasAll(openPorts, sig.Required)] is true exactly when every
    required port is a key of the port set; it is true for an empty
    required list, and on the empty port set it is true for the empty
    required list only. *)
Theorem hasAll_iff_required_subset (P : gset Z) (S : Signature) :
  (hasAll P (Required S) = true ↔ ∀ p, p ∈ Required S → p ∈ P)
  ∧ hasAll P [] = true
  ∧ (hasAll ∅ (Required S) = true ↔ Required S = []).
Proof.
  split; [apply hasAll_true|]. split; [done|].
  rewrite hasAll_true. split.
  - destruct (Required S) as [|q req]; [done|].
    intros H. specialize (H q). set_solver.
  - intros ->. intros p Hp. inversion Hp.
Qed.

(** ** Optional ports *)

(** C2. The ports found present and the ports found missing partition the
    optional list: as sets their union is the optional list and they have
    no port in common. This holds for the call as the claim writes it and
    for the call [main] makes, where [present] has been sorted first. *)
Theorem present_missing_partition (P : gset Z) (O : list Z) :
  let present := presentOptional P O in
  let missing := diff O present in
  (list_to_set present ∪ list_to_set missing =@{gset Z} list_to_set O)
  ∧ (list_to_set present ∩ list_to_set missing =@{gset Z} ∅)
  ∧ diff O (sortInts present) = missing.
Proof.
  simpl. rewrite presentOptional_filter, diff_filter.
  split; [|split].
  - apply set_eq. intros p.
    rewrite elem_of_union, !elem_of_list_to_set, !list_elem_of_filter.
    destruct (decide (p ∈ P)); naive_solver.
  - apply set_eq. intros p.
    rewrite elem_of_intersection, !elem_of_list_to_set, !list_elem_of_filter.
    set_solver.
  - rewrite <-diff_filter. apply diff_Permutation, merge_sort_Permutation.
Qed.

(** C9. [presentOptional] keeps, in the order of the optional list, the
    ports that are in the set; [diff] keeps, in the order of its first
    argument, the elements that are not in its second. Both results are
    subsequences of the list they filter, and neither is sorted: an
    optional list in descending order gives a descending result. *)
Theorem helpers_preserve_order (P : gset Z) (O X : list Z) :
  presentOptional P O = filter (.∈ P) O
  ∧ presentOptional P O `sublist_of` O
  ∧ diff O X = filter (.∉ X) O
  ∧ diff O X `sublist_of` O
  ∧ (∀ p, p ∈ diff O X ↔ p ∈ O ∧ p ∉ X)
  ∧ presentOptional {[20048; 4045]} [20048; 4045; 4049] = [20048; 4045]
  ∧ diff [20048; 4045; 4049] [4049] = [20048; 4045].
Proof.
  rewrite presentOptional_filter, diff_filter.
  split; [done|]. split; [apply sublist_filter|].
  split; [done|]. split; [apply sublist_filter|].
  split; [|split; by vm_compute].
  intros p. rewrite list_elem_of_filter. tauto.
Qed.

(** ** The catalog *)

(** A signature is well formed when it requires at least one port and none
    of its required ports is also optional. *)
Lemma earlier_catalog_well_formed :
  Forall (fun sig =>
            Required sig ≠ []
            ∧ Forall (fun p => p ∉ Optional sig) (Required sig))
         Earlier.knownSignatures.
Proof.
  unfold Earlier.knownSignatures.
  repeat (apply Forall_cons; split;
          [split; [done | repeat constructor; set_solver]|]).
  constructor.
Qed.

(** C7. Every signature of the built-in catalog requires at least one
    port, and none of its required ports is also one of its optional
    ports. *)
Theorem knownSignatures_well_formed :
  Forall (fun sig =>
            Required sig ≠ []
            ∧ Forall (fun p => p ∉ Optional sig) (Required sig))
         knownSignatures.
Proof.
  unfold knownSignatures.
  repeat (apply Forall_cons; split;
          [split; [done | repeat constructor; set_solver]|]).
  constructor.
Qed.

(** ** Strings and sorting *)

Lemma string_app_assoc (a b c : string) : (a +:+ b) +:+ c = a +:+ b +:+ c.
Proof.
  induction a as [|x a IH]; [done|].
  change (String x ((a +:+ b) +:+ c) = String x (a +:+ b +:+ c)).
  by rewrite IH.
Qed.

Lemma string_app_nil_l (a : string) : "" +:+ a = a.
Proof. done. Qed.

Lemma string_app_nil_r (a : string) : a +:+ "" = a.
Proof.
  induction a as [|x a IH]; [done|].
  change (String x (a +:+ "") = String x a). by rewrite IH.
Qed.

Lemma sortInts_Sorted (l : list Z) : Sorted Z.le (sortInts l).
Proof. apply (Sorted_merge_sort Z.le). Qed.

Lemma sortInts_Permutation (l : list Z) : sortInts l ≡ₚ l.
Proof. apply merge_sort_Permutation. Qed.

Lemma sortInts_proper (l1 l2 : list Z) :
  l1 ≡ₚ l2 → sortInts l1 = sortInts l2.
Proof.
  intros Hp. apply (Sorted_unique Z.le); try apply sortInts_Sorted.
  by rewrite !sortInts_Permutation.
Qed.

Lemma sortInts_idemp (l : list Z) : sortInts (sortInts l) = sortInts l.
Proof. apply sortInts_proper, sortInts_Permutation. Qed.

Lemma sortInts_nil_inv (l : list Z) : sortInts l = [] → l = [].
Proof.
  intros H. apply Permutation_nil_r. rewrite <-H.
  symmetry. apply sortInts_Permutation.
Qed.

Lemma length_pos_cons {A} (l : list A) :
  bool_decide (0 < length l)%nat = match l with [] => false | _ => true end.
Proof.
  destruct l; [apply bool_decide_eq_false_2 | apply bool_decide_eq_true_2];
    simpl; lia.
Qed.

(** ** What one iteration prints *)

Lemma printSignature_text (nc : bool) (P : gset Z) (sig : Signature) :
  (printSignature nc P sig).1
  = outcomeLine nc (Name sig) (sortInts (Required sig))
      (sortInts (presentOptional P (Optional sig)))
      (sortInts (diff (Optional sig) (presentOptional P (Optional sig)))).
Proof.
  unfold printSignature, outcomeLine, joinPorts.
  rewrite !length_pos_cons.
  destruct (Optional sig) as [|o opt] eqn:Hopt; simpl.
  { by rewrite !string_app_assoc. }
  set (present := presentOptional P (o :: opt)).
  destruct present as [|x present'] eqn:Hpres; simpl.
  - set (missing := diff (o :: opt) []).
    rewrite length_pos_cons.
    destruct missing as [|y missing'] eqn:Hmiss; simpl.
    + by rewrite !string_app_assoc.
    + destruct (sortInts (y :: missing')) eqn:Hs.
      { by apply sortInts_nil_inv in Hs. }
      by rewrite !string_app_assoc.
  - rewrite (diff_Permutation _ _ _ (sortInts_Permutation (x :: present'))).
    set (missing := diff (o :: opt) (x :: present')).
    rewrite length_pos_cons.
    destruct (sortInts (x :: present')) eqn:Hsp.
    { by apply sortInts_nil_inv in Hsp. }
    destruct missing as [|y missing'] eqn:Hmiss; simpl.
    + by rewrite !string_app_assoc.
    + destruct (sortInts (y :: missing')) eqn:Hs.
      { by apply sortInts_nil_inv in Hs. }
      by rewrite !string_app_assoc.
Qed.

Lemma printSignature_sig (nc : bool) (P : gset Z) (sig : Signature) :
  (printSignature nc P sig).2
  = mkSignature (Name sig) (sortInts (Required sig)) (Optional sig).
Proof.
  unfold printSignature, joinPorts. simpl.
  repeat (case_bool_decide || simpl || destruct (joinPorts _ _ _ _ _)); done.
Qed.

(** ** The loop of [main] *)

Lemma concat_lines_cons (x : string) (l : list string) :
  String.concat "" (x :: l) = x +:+ String.concat "" l.
Proof. destruct l; simpl; [by rewrite string_app_nil_r | done]. Qed.

Lemma loopBody_eq (nc : bool) (P : gset Z) (sig : Signature)
    (any : bool) (out : string) (visited : list Signature) :
  loopBody nc P (any, out, visited) sig
  = if hasAll P (Required sig)
    then (true, out +:+ (printSignature nc P sig).1,
          visited ++ [visit nc P sig])
    else (any, out, visited ++ [visit nc P sig]).
Proof.
  unfold loopBody, visit. destruct (hasAll P (Required sig)); [|done].
  by destruct (printSignature nc P sig).
Qed.

Lemma loop_acc (nc : bool) (P : gset Z) (cat : list Signature)
    (any : bool) (out : string) (visited : list Signature) :
  foldl (loopBody nc P) (any, out, visited) cat
  = (any || match matching P cat with [] => false | _ => true end,
     out +:+ String.concat ""
               (map (fun sig => (printSignature nc P sig).1) (matching P cat)),
     visited ++ map (visit nc P) cat).
Proof.
  revert any out visited.
  induction cat as [|sig cat IH]; intros any out visited.
  - simpl. by rewrite orb_false_r, string_app_nil_r, app_nil_r.
  - change (foldl (loopBody nc P) (any, out, visited) (sig :: cat))
      with (foldl (loopBody nc P) (loopBody nc P (any, out, visited) sig) cat).
    rewrite loopBody_eq. unfold matching. rewrite filter_cons.
    fold (matching P cat).
    destruct (hasAll P (Required sig)) eqn:Hm; rewrite IH.
    + destruct (decide _); [|done].
      rewrite orb_true_r. cbn [map]. rewrite concat_lines_cons.
      by rewrite string_app_assoc, <-app_assoc.
    + destruct (decide _); [done|]. by rewrite <-app_assoc.
Qed.

Lemma size_zero_empty (P : gset Z) :
  bool_decide (size P = 0%nat) = bool_decide (P = ∅).
Proof. apply bool_decide_ext. rewrite size_empty_iff. by fold_leibniz. Qed.

Lemma mainReport_empty (nc : bool) (cat : list Signature) :
  mainReport nc cat ∅ = (noOpenPorts nc, cat).
Proof. done. Qed.

Lemma mainReport_nonempty (nc : bool) (cat : list Signature) (P : gset Z) :
  P ≠ ∅ →
  mainReport nc cat P
  = (String.concat ""
       (map (fun sig => (printSignature nc P sig).1) (matching P cat))
     +:+ (match matching P cat with [] => noneRecognised nc | _ => "" end)
     +:+ nl,
     map (visit nc P) cat).
Proof.
  intros HP. unfold mainReport.
  rewrite size_zero_empty, bool_decide_eq_false_2 by done.
  rewrite loop_acc. cbn [orb app]. unfold noneRecognised.
  destruct (matching P cat); cbn [negb].
  - by rewrite !string_app_assoc.
  - by rewrite !string_app_nil_l.
Qed.

Lemma elem_of_matching (P : gset Z) (cat : list Signature) (sig : Signature) :
  sig ∈ matching P cat ↔ sig ∈ cat ∧ ∀ p, p ∈ Required sig → p ∈ P.
Proof.
  unfold matching. rewrite list_elem_of_filter, hasAll_true. tauto.
Qed.

(** [main] prints the report of the parsed port set over the built-in
    catalog whenever the parser returns no error. *)
Lemma main_printed (flag : bool) (env path : string)
    (fs : string → option file) (P : gset Z) :
  parseNmap fs path = (P, None) →
  main flag env [path] fs
  = Printed (mainReport (if bool_decide (env ≠ "") then true else flag)
               knownSignatures P).1.
Proof. intros H. unfold main. by rewrite H. Qed.

(** ** Independence of the declared order *)

Lemma hasAll_proper (P : gset Z) (l1 l2 : list Z) :
  l1 ≡ₚ l2 → hasAll P l1 = hasAll P l2.
Proof.
  intros Hp. apply eq_true_iff_eq. rewrite !hasAll_true.
  by setoid_rewrite Hp.
Qed.

Lemma printSignature_proper (nc : bool) (P : gset Z) (sig sig' : Signature) :
  Name sig' = Name sig →
  Required sig' ≡ₚ Required sig →
  Optional sig' ≡ₚ Optional sig →
  (printSignature nc P sig').1 = (printSignature nc P sig).1.
Proof.
  intros Hn Hr Ho. rewrite !printSignature_text, Hn.
  assert (presentOptional P (Optional sig')
          ≡ₚ presentOptional P (Optional sig)) as Hpres.
  { rewrite !presentOptional_filter. by rewrite Ho. }
  f_equal; apply sortInts_proper; [done..|].
  rewrite (diff_Permutation _ _ _ Hpres), !diff_filter. by rewrite Ho.
Qed.

Lemma visit_spec (nc : bool) (P : gset Z) (sig : Signature) :
  Name (visit nc P sig) = Name sig
  ∧ Required (visit nc P sig) ≡ₚ Required sig
  ∧ Optional (visit nc P sig) = Optional sig.
Proof.
  unfold visit. destruct (hasAll P (Required sig)); [|done].
  rewrite printSignature_sig. simpl.
  split; [done|]. split; [apply sortInts_Permutation | done].
Qed.

Lemma visit_idemp (nc : bool) (P : gset Z) (sig : Signature) :
  visit nc P (visit nc P sig) = visit nc P sig.
Proof.
  unfold visit. destruct (hasAll P (Required sig)) eqn:Hm; [|by rewrite Hm].
  rewrite !printSignature_sig. simpl.
  rewrite (hasAll_proper _ _ _ (sortInts_Permutation _)), Hm.
  by rewrite sortInts_idemp.
Qed.

Lemma matching_visit (nc : bool) (P : gset Z) (cat : list Signature) :
  map (fun sig => (printSignature nc P sig).1)
      (matching P (map (visit nc P) cat))
  = map (fun sig => (printSignature nc P sig).1) (matching P cat).
Proof.
  unfold matching. induction cat as [|sig cat IH]; [done|].
  cbn [map]. rewrite !filter_cons.
  destruct (visit_spec nc P sig) as (Hn & Hr & Ho).
  rewrite (hasAll_proper _ _ _ Hr).
  destruct (decide _); [|done].
  cbn [map]. rewrite IH. f_equal.
  apply printSignature_proper; [done..|by rewrite Ho].
Qed.

(** ** Order of the ports shown *)

(** C3, as the claim states it for [presentOptional], fails: with ports
    20048 and 4045 open, the optional list of the NFS signature gives
    [[20048; 4045]], which is not ascending. *)
Lemma presentOptional_not_ascending :
  ¬ Sorted Z.le (presentOptional {[20048; 4045]} [20048; 4045; 4049]).
Proof.
  replace (presentOptional _ _) with [20048; 4045] by (by vm_compute).
  intros H. apply Sorted_inv in H as [_ H]. apply HdRel_inv in H. lia.
Qed.

(** C3, amended. The three port lists of a printed line (required, present
    optional, missing optional) are each shown in ascending order, because
    [joinPorts] sorts the list it is given before rendering it; the line
    is the same whatever the order in which the signature declares its
    ports. [presentOptional] itself returns its ports in the order of the
    optional list. *)
Theorem shown_ports_ascending (nc : bool) (P : gset Z) (sig : Signature) :
  let present := presentOptional P (Optional sig) in
  let missing := diff (Optional sig) present in
  (printSignature nc P sig).1
  = outcomeLine nc (Name sig) (sortInts (Required sig))
      (sortInts present) (sortInts missing)
  ∧ (∀ ports colour boldOn faintOn,
       joinPorts nc ports colour boldOn faintOn
       = (joinParts nc (sortInts ports) colour boldOn faintOn,
          sortInts ports)
       ∧ Sorted Z.le (sortInts ports)
       ∧ sortInts ports ≡ₚ ports)
  ∧ (∀ sig',
       Name sig' = Name sig →
       Required sig' ≡ₚ Required sig →
       Optional sig' ≡ₚ Optional sig →
       (printSignature nc P sig').1 = (printSignature nc P sig).1)
  ∧ present = filter (.∈ P) (Optional sig).
Proof.
  cbv zeta. split; [apply printSignature_text|]. split; [|split].
  - intros ports colour boldOn faintOn. split; [done|].
    split; [apply sortInts_Sorted | apply sortInts_Permutation].
  - intros sig'. apply printSignature_proper.
  - apply presentOptional_filter.
Qed.

Lemma shown_ports_ascending_witness :
  (printSignature true {[111; 2049; 20048; 4045]}
     (mkSignature "NFS server (rpcbind + nfsd)"
        [2049; 111] [4049; 4045; 20048])).1
  = (printSignature true {[111; 2049; 20048; 4045]}
       (mkSignature "NFS server (rpcbind + nfsd)"
          [111; 2049] [20048; 4045; 4049])).1.
Proof.
  apply (shown_ports_ascending true {[111; 2049; 20048; 4045]}
           (mkSignature "NFS server (rpcbind + nfsd)"
              [111; 2049] [20048; 4045; 4049])).
  - reflexivity.
  - simpl. apply perm_swap.
  - simpl. change [4049; 4045; 20048] with (reverse [20048; 4045; 4049]).
    apply reverse_Permutation.
Defined.

(** ** The report *)

(** C4. For a port set that is not empty, standard output is one line per
    signature whose required ports are all open, in catalog order, followed
    by the closing lines; a signature that does not match contributes
    nothing. A signature without optional ports has no port present and
    none missing, and its line stops after the required ports. *)
Theorem report_follows_catalog (nc : bool) (cat : list Signature)
    (P : gset Z) :
  P ≠ ∅ →
  (mainReport nc cat P).1
  = String.concat ""
      (map (fun sig =>
              outcomeLine nc (Name sig) (sortInts (Required sig))
                (sortInts (presentOptional P (Optional sig)))
                (sortInts (diff (Optional sig)
                             (presentOptional P (Optional sig)))))
           (matching P cat))
    +:+ (match matching P cat with [] => noneRecognised nc | _ => "" end)
    +:+ nl
  ∧ matching P cat `sublist_of` cat
  ∧ (∀ sig, sig ∈ matching P cat
            ↔ sig ∈ cat ∧ ∀ p, p ∈ Required sig → p ∈ P)
  ∧ (∀ sig, Optional sig = [] →
       presentOptional P (Optional sig) = []
       ∧ diff (Optional sig) (presentOptional P (Optional sig)) = []
       ∧ (printSignature nc P sig).1
         = style nc "▶" green true false +:+ " "
           +:+ style nc ("Possible " +:+ Name sig +:+ " detected")
                 cyan true false
           +:+ ": Required ports "
           +:+ joinParts nc (sortInts (Required sig)) green true false
           +:+ " are present" +:+ nl).
Proof.
  intros HP. split; [|split; [|split]].
  - rewrite mainReport_nonempty by done. cbn [fst].
    do 2 f_equal. apply map_ext. intros sig. apply printSignature_text.
  - apply sublist_filter.
  - intros sig. apply elem_of_matching.
  - intros sig Ho. rewrite printSignature_text, Ho. done.
Qed.

Lemma report_follows_catalog_witness :
  (mainReport true knownSignatures {[135; 139; 445]}).1
  = "▶ Possible SMB / NetBIOS file share detected: "
    +:+ "Required ports 139, 445 are present" +:+ nl
    +:+ "▶ Possible Windows RPC services (EPM + dynamic RPC) detected: "
    +:+ "Required ports 135 are present" +:+ nl +:+ nl.
Proof.
  destruct (report_follows_catalog true knownSignatures {[135; 139; 445]})
    as [H _].
  - intros H. apply (f_equal size) in H. vm_compute in H. discriminate.
  - rewrite H. vm_compute. reflexivity.
Defined.

(** C5. An empty port set ends the run before the catalog is read: the
    only output is the line saying that no open port was found, whatever
    the catalog holds, and the catalog is left as it was. A port set that
    is not empty and satisfies no signature gives the line saying that no
    signature was recognised, and a blank line. The two outputs differ. *)
Theorem empty_results_distinct (nc : bool) :
  (∀ cat, mainReport nc cat ∅ = (noOpenPorts nc, cat))
  ∧ (∀ cat P,
       P ≠ ∅ →
       (∀ sig, sig ∈ cat → ¬ ∀ p, p ∈ Required sig → p ∈ P) →
       (mainReport nc cat P).1 = noneRecognised nc +:+ nl)
  ∧ noOpenPorts nc ≠ noneRecognised nc +:+ nl.
Proof.
  split; [apply mainReport_empty|]. split.
  - intros cat P HP Hno. rewrite mainReport_nonempty by done. cbn [fst].
    assert (matching P cat = []) as ->; [|done].
    apply elem_of_nil_inv. intros sig [Hin Hreq]%elem_of_matching.
    by apply (Hno sig).
  - destruct nc; vm_compute; discriminate.
Qed.

Lemma empty_results_distinct_witness :
  (mainReport false knownSignatures {[22; 80]}).1
  = noneRecognised false +:+ nl
  ∧ (mainReport false knownSignatures ∅).1 = noOpenPorts false.
Proof.
  destruct (empty_results_distinct false) as (He & Hn & _). split.
  - apply Hn.
    + intros H. apply (f_equal size) in H. vm_compute in H. discriminate.
    + intros sig Hin Hall. apply hasAll_true in Hall.
      unfold knownSignatures in Hin.
      repeat (apply elem_of_cons in Hin as [->|Hin];
              [vm_compute in Hall; discriminate|]).
      inversion Hin.
  - by rewrite He.
Defined.

(** C8. Running the report again gives the same output. This holds for a
    second run over the very catalog the first run left behind, whose
    matched entries have had their required ports sorted in place: the
    output is the same, and the catalog does not change any more. The
    catalog left behind differs from the original only in the order of
    required ports. *)
Theorem report_repeatable (nc : bool) (cat : list Signature) (P : gset Z) :
  let first := mainReport nc cat P in
  let second := mainReport nc first.2 P in
  second.1 = first.1
  ∧ second.2 = first.2
  ∧ Forall2 (fun sig sig' =>
               Name sig' = Name sig
               ∧ Required sig' ≡ₚ Required sig
               ∧ Optional sig' = Optional sig)
            cat first.2.
Proof.
  cbv zeta. destruct (decide (P = ∅)) as [->|HP].
  { rewrite !mainReport_empty. cbn [fst snd].
    split; [done|]. split; [done|].
    induction cat as [|sig cat IH]; by constructor. }
  rewrite !mainReport_nonempty by done. cbn [fst snd].
  split; [|split].
  - rewrite matching_visit.
    pose proof (f_equal length (matching_visit nc P cat)) as Hlen.
    rewrite !length_map in Hlen.
    by destruct (matching P (map (visit nc P) cat)), (matching P cat).
  - rewrite map_map. apply map_ext. intros sig. apply visit_idemp.
  - induction cat as [|sig cat IH]; constructor; [apply visit_spec | done].
Qed.

(** ** The line pattern *)

Lemma string_app_cons (c : ascii) (a b : string) :
  String c a +:+ b = String c (a +:+ b).
Proof. done. Qed.

Lemma spanDigits_spec (s : string) :
  s = (spanDigits s).1 +:+ (spanDigits s).2
  ∧ allChars isDigit (spanDigits s).1 = true.
Proof.
  induction s as [|c s [IH1 IH2]]; simpl; [done|].
  destruct (isDigit c) eqn:Hc; [|done].
  destruct (spanDigits s) as [ds rest]. simpl in *.
  rewrite string_app_cons, <-IH1, Hc. done.
Qed.

Lemma spanDigits_app (ds rest : string) :
  allChars isDigit ds = true →
  match rest with String c _ => isDigit c = false | EmptyString => True end →
  spanDigits (ds +:+ rest) = (ds, rest).
Proof.
  intros Hds Hrest. induction ds as [|c ds IH].
  - rewrite string_app_nil_l. destruct rest as [|c r]; simpl; [done|].
    by rewrite Hrest.
  - simpl in Hds. apply andb_true_iff in Hds as [Hc Hds].
    rewrite string_app_cons. simpl. by rewrite Hc, IH.
Qed.

Lemma skipReSpace_spec (s : string) :
  ∃ ws, s = ws +:+ skipReSpace s ∧ allChars isReSpace ws = true.
Proof.
  induction s as [|c s (ws & IH1 & IH2)]; simpl; [by exists ""|].
  destruct (isReSpace c) eqn:Hc; [|by exists ""].
  exists (String c ws). rewrite string_app_cons, <-IH1. simpl.
  by rewrite Hc.
Qed.

Lemma skipReSpace_app (ws rest : string) :
  allChars isReSpace ws = true →
  match rest with String c _ => isReSpace c = false | EmptyString => True end →
  skipReSpace (ws +:+ rest) = rest.
Proof.
  intros Hws Hrest. induction ws as [|c ws IH].
  - rewrite string_app_nil_l. destruct rest as [|c r]; simpl; [done|].
    by rewrite Hrest.
  - simpl in Hws. apply andb_true_iff in Hws as [Hc Hws].
    rewrite string_app_cons. simpl. by rewrite Hc, IH.
Qed.

Lemma stripPrefix_spec (p s r : string) :
  stripPrefix p s = Some r ↔ s = p +:+ r.
Proof.
  revert s. induction p as [|a p IH]; intros s; simpl.
  - rewrite string_app_nil_l. naive_solver.
  - destruct s as [|b s]; [done|]. rewrite string_app_cons.
    case_bool_decide as Hab.
    + subst b. rewrite IH. naive_solver.
    + naive_solver.
Qed.

(** The matcher accepts exactly the lines of the pattern, and returns the
    digit run. *)
Lemma reFindStringSubmatch_spec (line ds : string) :
  reFindStringSubmatch line = Some ds ↔ startsOpenLine line ds.
Proof.
  unfold reFindStringSubmatch, startsOpenLine. split.
  - destruct (spanDigits_spec line) as [Hline Hds].
    destruct (spanDigits line) as [ds' rest]. cbn [fst snd] in *.
    case_bool_decide as Hne; [done|].
    destruct (stripPrefix "/tcp" rest) as [[|c rest']|] eqn:Hp; try done.
    apply stripPrefix_spec in Hp.
    destruct (isReSpace c) eqn:Hc; [|done].
    destruct (stripPrefix "open" (skipReSpace rest')) as [r|] eqn:Ho;
      [|done].
    apply stripPrefix_spec in Ho. intros [= <-].
    destruct (skipReSpace_spec rest') as (ws & Hr & Hws).
    exists (String c ws), r. simpl. rewrite Hc, Hws.
    repeat split; try done.
    by rewrite Hline, Hp, Hr, Ho at 1.
  - intros (ws & rest & Hne & Hds & Hwne & Hws & ->).
    rewrite spanDigits_app by done.
    rewrite bool_decide_eq_false_2 by done.
    destruct ws as [|c ws]; [done|]. simpl in Hws.
    apply andb_true_iff in Hws as [Hc Hws].
    replace (stripPrefix "/tcp" _)
      with (Some (String c (ws +:+ "open" +:+ rest)))
      by (symmetry; by apply stripPrefix_spec).
    rewrite Hc, skipReSpace_app by done.
    replace (stripPrefix "open" _) with (Some rest)
      by (symmetry; by apply stripPrefix_spec).
    done.
Qed.

(** ** Decimal conversion *)

Lemma isDigit_value (c : ascii) :
  isDigit c = true → 0 ≤ Z.of_N (code c) - 48 ≤ 9.
Proof.
  unfold isDigit. rewrite andb_true_iff, !N.leb_le. lia.
Qed.

Lemma decimal_acc_bound (s : string) (n : Z) :
  allChars isDigit s = true → 0 ≤ n →
  0 ≤ foldl (fun n ch => n * 10 + (Z.of_N (code ch) - 48)) n
        (String.list_ascii_of_string s)
    < (n + 1) * 10 ^ Z.of_nat (String.length s).
Proof.
  revert n. induction s as [|c s IH]; intros n Hs Hn.
  - simpl. lia.
  - simpl in Hs. apply andb_true_iff in Hs as [Hc Hs].
    apply isDigit_value in Hc.
    cbn [String.list_ascii_of_string foldl String.length].
    specialize (IH (n * 10 + (Z.of_N (code c) - 48)) Hs).
    rewrite Nat2Z.inj_succ, Z.pow_succ_r by lia.
    assert (0 < 10 ^ Z.of_nat (String.length s)) by (apply Z.pow_pos_nonneg; lia).
    nia.
Qed.

Lemma Atoi_fits (ds : string) : decimal ds ≤ maxInt → Atoi ds = decimal ds.
Proof.
  intros H. unfold Atoi. case_bool_decide; [done|].
  by rewrite bool_decide_eq_true_2.
Qed.

Lemma Atoi_min (ds : string) :
  allChars isDigit ds = true → Atoi ds = Z.min (decimal ds) maxInt.
Proof.
  intros Hds. unfold Atoi. case_bool_decide as Hlen.
  - pose proof (decimal_acc_bound ds 0 Hds) as Hb. fold (decimal ds) in Hb.
    assert (10 ^ Z.of_nat (String.length ds) ≤ 10 ^ 18)
      by (apply Z.pow_le_mono_r; lia).
    change maxInt with 9223372036854775807.
    change (10 ^ 18) with 1000000000000000000 in *. lia.
  - case_bool_decide; lia.
Qed.

(** ** The scan loop *)

Lemma scanStep_elem (ports : gset Z) (text : string) (p : Z) :
  p ∈ scanStep ports text
  ↔ p ∈ ports
    ∨ (0 < p ∧ ∃ ds, startsOpenLine (TrimSpace text) ds ∧ Atoi ds = p).
Proof.
  unfold scanStep.
  destruct (reFindStringSubmatch (TrimSpace text)) as [m|] eqn:Hm.
  - assert (∀ ds, startsOpenLine (TrimSpace text) ds ↔ ds = m) as Huniq.
    { intros ds. rewrite <-reFindStringSubmatch_spec, Hm. naive_solver. }
    case_bool_decide as Hpos.
    + rewrite elem_of_union, elem_of_singleton. split.
      * intros [->|Hp]; [right|by left]. split; [done|].
        exists m. by rewrite Huniq.
      * intros [Hp|(_ & ds & ->%Huniq & <-)]; [by right | by left].
    + split; [by left|].
      intros [Hp|(Hp & ds & ->%Huniq & <-)]; [done|lia].
  - split; [by left|].
    intros [Hp|(_ & ds & Hds%reFindStringSubmatch_spec & _)]; [done|].
    congruence.
Qed.

Lemma scan_fold (tokens : list string) (ports : gset Z) (p : Z) :
  p ∈ foldl scanStep ports tokens
  ↔ p ∈ ports
    ∨ (0 < p
       ∧ ∃ text ds,
           text ∈ tokens ∧ startsOpenLine (TrimSpace text) ds ∧ Atoi ds = p).
Proof.
  revert ports. induction tokens as [|t tokens IH]; intros ports.
  - simpl. split; [by left|]. intros [?|(_ & text & _ & Hin & _)]; [done|].
    inversion Hin.
  - cbn [foldl]. rewrite IH, scanStep_elem. split.
    + intros [[Hp|(Hp & ds & Hds & Ha)]|(Hp & text & ds & Hin & Hds & Ha)].
      * by left.
      * right. split; [done|]. exists t, ds. split; [by left|done].
      * right. split; [done|]. exists text, ds. split; [by right|done].
    + intros [Hp|(Hp & text & ds & Hin & Hds & Ha)]; [by left; left|].
      apply elem_of_cons in Hin as [->|Hin].
      * left; right. split; [done|]. by exists ds.
      * right. split; [done|]. by exists text, ds.
Qed.

Lemma scanTokens_no_error (lines : list string) :
  (scanTokens lines).2 = None
  ↔ Forall (fun l => Z.of_nat (String.length l) < MaxScanTokenSize) lines.
Proof.
  induction lines as [|l lines IH]; simpl; [done|].
  rewrite Forall_cons. case_bool_decide as Hl.
  - simpl. split; [done|]. intros [? _]. lia.
  - destruct (scanTokens lines) as [tokens err]. simpl in *.
    rewrite IH. split; [|tauto]. split; [lia|done].
Qed.

Lemma scanTokens_all (lines : list string) :
  (scanTokens lines).2 = None → (scanTokens lines).1 = map dropCR lines.
Proof.
  induction lines as [|l lines IH]; simpl; [done|].
  case_bool_decide; [done|].
  destruct (scanTokens lines) as [tokens err]. simpl in *.
  intros ->. by rewrite IH.
Qed.

(** ** The port set of a scan report *)


(** Lines written with line feeds are read back as they were written. *)
Lemma splitLines_line (cur l rest : string) :
  noLF l = true →
  splitLines cur (l +:+ String LF rest) = (cur +:+ l) :: splitLines "" rest.
Proof.
  revert cur. induction l as [|c l IH]; intros cur Hl.
  - by rewrite string_app_nil_l, string_app_nil_r.
  - simpl in Hl. apply andb_true_iff in Hl as [Hc Hl].
    apply negb_true_iff, bool_decide_eq_false in Hc.
    rewrite string_app_cons. simpl. rewrite bool_decide_eq_false_2 by done.
    rewrite IH by done. by rewrite string_app_assoc.
Qed.

Lemma splitLines_last (cur l : string) :
  noLF l = true →
  splitLines cur l = if bool_decide (cur +:+ l = "") then [] else [cur +:+ l].
Proof.
  revert cur. induction l as [|c l IH]; intros cur Hl.
  - by rewrite string_app_nil_r.
  - simpl in Hl. apply andb_true_iff in Hl as [Hc Hl].
    apply negb_true_iff, bool_decide_eq_false in Hc.
    simpl. rewrite bool_decide_eq_false_2 by done.
    rewrite IH by done. by rewrite string_app_assoc.
Qed.

Lemma splitLines_unlines (lines : list string) (last : string) :
  Forall (fun l => noLF l = true) lines → noLF last = true →
  splitLines "" (unlines lines +:+ last)
  = lines ++ (if bool_decide (last = "") then [] else [last]).
Proof.
  intros Hlines Hlast. induction Hlines as [|l lines Hl _ IH].
  - rewrite string_app_nil_l. by rewrite splitLines_last.
  - cbn [unlines]. rewrite string_app_assoc, string_app_cons.
    by rewrite splitLines_line, IH.
Qed.

Lemma parseNmap_ports (fs : string → option file) (path : string) :
  (parseNmap fs path).1
  = match fs path with
    | Some f => foldl scanStep ∅ (scanned (bytes f))
    | None => ∅
    end.
Proof.
  unfold parseNmap, parseData, scanned. destruct (fs path) as [f|]; [|done].
  by destruct (scanTokens (splitLines "" (bytes f))).
Qed.

Lemma parseNmap_err (fs : string → option file) (path : string) :
  (parseNmap fs path).2
  = match fs path with
    | Some f =>
      match (scanTokens (splitLines "" (bytes f))).2 with
      | Some e => Some e
      | None => if failed f then Some ErrRead else None
      end
    | None => Some ErrOpen
    end.
Proof.
  unfold parseNmap, parseData. destruct (fs path) as [f|]; [|done].
  by destruct (scanTokens (splitLines "" (bytes f))).
Qed.



Lemma overflow_line_capped :
  (∃ text ds,
     text ∈ scanned "9223372036854775808/tcp open"
     ∧ startsOpenLine (TrimSpace text) ds
     ∧ decimal ds = 9223372036854775808)
  ∧ 9223372036854775808 ∉ (parseData "9223372036854775808/tcp open").1.
Proof.
  split.
  - exists "9223372036854775808/tcp open", "9223372036854775808".
    split; [by left|]. split; [|done].
    by apply reFindStringSubmatch_spec.
  - intros H%elem_of_elements.
    replace (elements _) with [9223372036854775807] in H by (by vm_compute).
    apply list_elem_of_singleton in H. lia.
Qed.







(** C10, as the claim states it, fails on the report made of the one line
    [9223372036854775808/tcp open]: the line matches, its integer [2^63]
    is above 65535, and it is not in the port set. *)
Lemma port_above_int_left_out :
  (∃ text ds,
     text ∈ scanned "9223372036854775808/tcp open"
     ∧ startsOpenLine (TrimSpace text) ds
     ∧ decimal ds = 9223372036854775808)
  ∧ 65535 < 9223372036854775808
  ∧ 9223372036854775808 ∉ (parseData "9223372036854775808/tcp open").1.
Proof.
  destruct overflow_line_capped as [Hline Hout].
  split; [done|]. split; [lia|done].
Qed.

(** C10, amended. Every port the parser returns is strictly positive, and
    the set holds it once. The line [0/tcp open] has the form of the
    pattern and gives no port. A digit run of any positive value that fits
    an [int] puts that value in the set when its line matches: there is no
    upper bound at 65535, and [70000/tcp open] gives port 70000. *)
Theorem parsed_ports_positive (fs : string → option file)
    (path : string) :
  (∀ p, p ∈ (parseNmap fs path).1 → 0 < p)
  ∧ NoDup (elements (parseNmap fs path).1)
  ∧ (startsOpenLine (TrimSpace "0/tcp open") "0"
     ∧ elements (parseData "0/tcp open").1 = [])
  ∧ (∀ f text ds,
       fs path = Some f →
       text ∈ scanned (bytes f) →
       startsOpenLine (TrimSpace text) ds →
       0 < decimal ds ≤ maxInt →
       decimal ds ∈ (parseNmap fs path).1)
  ∧ elements (parseData "70000/tcp open").1 = [70000].
Proof.
  split; [|split; [apply NoDup_elements|split; [|split]]].
  - rewrite parseNmap_ports. destruct (fs path) as [f|]; [|set_solver].
    intros p. rewrite scan_fold. set_solver.
  - split; [by apply reFindStringSubmatch_spec | by vm_compute].
  - intros f text ds Hfs Hin Hds [Hpos Hfit].
    rewrite parseNmap_ports, Hfs.
    apply scan_fold. right. split; [done|].
    exists text, ds. by rewrite Atoi_fits.
  - by vm_compute.
Qed.

Lemma parsed_ports_positive_witness :
  70000 ∈ (parseNmap (fun _ => Some (mkFile "70000/tcp open" false))
             "scan.nmap").1.
Proof.
  destruct (parsed_ports_positive
              (fun _ => Some (mkFile "70000/tcp open" false))
              "scan.nmap") as (_ & _ & _ & Hbig & _).
  apply (Hbig (mkFile "70000/tcp open" false) "70000/tcp open" "70000").
  - reflexivity.
  - by left.
  - by apply reFindStringSubmatch_spec.
  - by vm_compute.
Defined.

(** * Further properties of the helpers *)

Lemma hasAll_app (P : gset Z) (a b : list Z) :
  hasAll P (a ++ b) = hasAll P a && hasAll P b.
Proof.
  induction a as [|p a IH]; simpl; [done|]. by case_bool_decide.
Qed.

(** X1. Matching only grows with the port set: a required list satisfied
    by [P] is satisfied by every larger set. A concatenated required list
    is satisfied exactly when both halves are, and only the ports that are
    required matter. *)
Theorem hasAll_monotone (P Q : gset Z) (a b : list Z) :
  (P ⊆ Q → hasAll P a = true → hasAll Q a = true)
  ∧ hasAll P (a ++ b) = hasAll P a && hasAll P b
  ∧ hasAll (P ∩ list_to_set a) a = hasAll P a.
Proof.
  split; [|split; [apply hasAll_app|]].
  - rewrite !hasAll_true. set_solver.
  - apply eq_true_iff_eq. rewrite !hasAll_true. set_solver.
Qed.

Lemma hasAll_monotone_witness :
  hasAll {[22; 139; 445]} [139; 445] = true.
Proof.
  apply (hasAll_monotone {[139; 445]} {[22; 139; 445]} [139; 445] []).
  - set_solver.
  - reflexivity.
Defined.

Lemma filter_ext_elem {A} (P1 P2 : A → Prop)
    `{!∀ x, Decision (P1 x), !∀ x, Decision (P2 x)} (l : list A) :
  (∀ x, x ∈ l → P1 x ↔ P2 x) → filter P1 l = filter P2 l.
Proof.
  induction l as [|x l IH]; intros Hext; [done|].
  rewrite !filter_cons, IH by (intros y Hy; apply Hext; by right).
  pose proof (Hext x (list_elem_of_here x l)) as Hx.
  destruct (decide (P1 x)), (decide (P2 x)); try done; tauto.
Qed.

Lemma diff_present (P : gset Z) (O : list Z) :
  diff O (presentOptional P O) = filter (.∉ P) O.
Proof.
  rewrite diff_filter, presentOptional_filter.
  apply filter_ext_elem. intros p Hp. rewrite list_elem_of_filter. tauto.
Qed.

(** X2. The ports present followed by the ports missing are a
    rearrangement of the optional list, duplicates included: the two
    lengths add up to the length of the optional list, and when the
    optional list has no duplicate neither result has one. *)
Theorem present_missing_permutation (P : gset Z) (O : list Z) :
  let present := presentOptional P O in
  let missing := diff O present in
  present ++ missing ≡ₚ O
  ∧ (length present + length missing = length O)%nat
  ∧ (NoDup O → NoDup present ∧ NoDup missing).
Proof.
  cbv zeta. rewrite diff_present, presentOptional_filter.
  assert (filter (.∈ P) O ++ filter (.∉ P) O ≡ₚ O) as Hperm
    by apply filter_app_complement.
  split; [done|]. split.
  - by rewrite <-length_app, Hperm.
  - intros Hnd. split; by apply NoDup_filter.
Qed.

Lemma present_missing_permutation_witness :
  NoDup (presentOptional {[4045]} [20048; 4045; 4049])
  ∧ NoDup (diff [20048; 4045; 4049]
             (presentOptional {[4045]} [20048; 4045; 4049])).
Proof.
  apply (present_missing_permutation {[4045]} [20048; 4045; 4049]).
  repeat (constructor; [set_solver|]). constructor.
Defined.

(** X3. [diff] at its edges and under composition: nothing is removed by
    an empty second argument, everything by the list itself, and an empty
    first argument gives an empty result. The result depends on the second
    argument only through the set of its elements; removing the same
    elements twice changes nothing, and removing a concatenation is
    removing one part after the other. *)
Theorem diff_edges (all s1 s2 : list Z) :
  diff all [] = all
  ∧ diff all all = []
  ∧ diff [] s1 = []
  ∧ ((∀ p, p ∈ s1 ↔ p ∈ s2) → diff all s1 = diff all s2)
  ∧ diff (diff all s1) s1 = diff all s1
  ∧ diff all (s1 ++ s2) = diff (diff all s1) s2.
Proof.
  rewrite !diff_filter.
  split; [|split; [|split; [done|split; [|split]]]].
  - induction all as [|p all IH]; [done|].
    rewrite filter_cons_True by apply not_elem_of_nil. by rewrite IH.
  - apply elem_of_nil_inv. intros p [Hp Hin]%list_elem_of_filter. done.
  - intros H. apply list_filter_iff. intros p. by rewrite H.
  - rewrite list_filter_filter. apply list_filter_iff. tauto.
  - rewrite list_filter_filter. apply list_filter_iff. intros p.
    rewrite not_elem_of_app. tauto.
Qed.

Lemma diff_edges_witness :
  diff [20048; 4045; 4049] [4045; 4045] = diff [20048; 4045; 4049] [4045].
Proof.
  destruct (diff_edges [20048; 4045; 4049] [4045; 4045] [4045])
    as (_ & _ & _ & Hset & _).
  apply Hset. intros p. rewrite !elem_of_cons. tauto.
Defined.

(** * Further properties of the printed line *)

Lemma filter_all {A} (P : A → Prop) `{!∀ x, Decision (P x)} (l : list A) :
  (∀ x, x ∈ l → P x) → filter P l = l.
Proof.
  induction l as [|x l IH]; intros Hall; [done|].
  rewrite filter_cons_True by (apply Hall; by left).
  rewrite IH; [done|]. intros y Hy. apply Hall. by right.
Qed.

Lemma filter_none {A} (P : A → Prop) `{!∀ x, Decision (P x)} (l : list A) :
  (∀ x, x ∈ l → ¬ P x) → filter P l = [].
Proof.
  intros Hnone. apply elem_of_nil_inv.
  intros x [HP Hx]%list_elem_of_filter. by apply (Hnone x).
Qed.

(** X4. When every optional port of the signature is open, its line lists
    all of them, sorted, as also present and has no clause for missing
    ports; when none is open, the line has no clause for present ports
    and lists all of them, sorted, as missing. *)
Theorem optional_clauses (nc : bool) (P : gset Z) (sig : Signature) :
  ((∀ p, p ∈ Optional sig → p ∈ P) →
   (printSignature nc P sig).1
   = outcomeLine nc (Name sig) (sortInts (Required sig))
       (sortInts (Optional sig)) [])
  ∧ ((∀ p, p ∈ Optional sig → p ∉ P) →
     (printSignature nc P sig).1
     = outcomeLine nc (Name sig) (sortInts (Required sig))
         [] (sortInts (Optional sig))).
Proof.
  rewrite printSignature_text, diff_present, presentOptional_filter.
  split; intros Hall.
  - rewrite (filter_all (.∈ P)) by done.
    rewrite (filter_none (.∉ P)); [done|]. intros p Hp Hn. by apply Hn, Hall.
  - rewrite (filter_none (.∈ P)) by done.
    by rewrite (filter_all (.∉ P)) by done.
Qed.

Lemma optional_clauses_witness :
  (printSignature true {[111; 2049]}
     (mkSignature "NFS server (rpcbind + nfsd)"
        [111; 2049] [20048; 4045; 4049])).1
  = "▶ Possible NFS server (rpcbind + nfsd) detected: "
    +:+ "Required ports 111, 2049 are present"
    +:+ ", optional ports 4045, 4049, 20048 are missing" +:+ nl.
Proof.
  destruct (optional_clauses true {[111; 2049]}
              (mkSignature "NFS server (rpcbind + nfsd)"
                 [111; 2049] [20048; 4045; 4049])) as [_ Hnone].
  rewrite Hnone; [by vm_compute|].
  simpl. intros p Hp. set_solver.
Defined.

(** X5. The signatures reported only grow with the port set: those
    reported for [P] are, in the same order, among those reported for any
    larger set. The signatures reported for a catalog made of two parts
    are those of the first part followed by those of the second, so an
    entry added to the catalog leaves the others as they were. *)
Theorem matching_monotone (P Q : gset Z) (cat1 cat2 : list Signature) :
  (P ⊆ Q → matching P cat1 `sublist_of` matching Q cat1)
  ∧ matching P (cat1 ++ cat2) = matching P cat1 ++ matching P cat2.
Proof.
  unfold matching. split; [|apply filter_app].
  intros HPQ.
  assert (filter (fun sig => hasAll P (Required sig) = true) cat1
          = filter (fun sig => hasAll P (Required sig) = true)
              (filter (fun sig => hasAll Q (Required sig) = true) cat1))
    as ->; [|apply sublist_filter].
  rewrite list_filter_filter. apply list_filter_iff. intros sig.
  rewrite !hasAll_true. set_solver.
Qed.

Lemma matching_monotone_witness :
  matching {[139; 445]} knownSignatures
  `sublist_of` matching {[135; 139; 445]} knownSignatures.
Proof.
  apply (matching_monotone {[139; 445]} {[135; 139; 445]}
           knownSignatures []).
  set_solver.
Defined.

(** X6. [joinPorts] gives the same text and leaves the same slice behind
    for every order of its argument; called again on the slice it left
    behind it gives the same result. The slice keeps its length. An empty
    slice gives the empty string and a single port gives that port alone,
    with no separator. *)
Theorem joinPorts_order_free (nc : bool) (ports ports' : list Z)
    (colour : string) (boldOn faintOn : bool) :
  (ports ≡ₚ ports' →
   joinPorts nc ports colour boldOn faintOn
   = joinPorts nc ports' colour boldOn faintOn)
  ∧ joinPorts nc (joinPorts nc ports colour boldOn faintOn).2
      colour boldOn faintOn
    = joinPorts nc ports colour boldOn faintOn
  ∧ length (joinPorts nc ports colour boldOn faintOn).2 = length ports
  ∧ (joinPorts nc [] colour boldOn faintOn).1 = ""
  ∧ (∀ p, (joinPorts nc [p] colour boldOn faintOn).1
          = style nc (Itoa p) colour boldOn faintOn).
Proof.
  unfold joinPorts. cbn [fst snd].
  split; [|split; [|split; [|split]]]; try done.
  - intros Hp. by rewrite (sortInts_proper _ _ Hp).
  - by rewrite sortInts_idemp.
  - by rewrite sortInts_Permutation.
Qed.

Lemma joinPorts_order_free_witness :
  joinPorts true [445; 139] "" false false
  = joinPorts true [139; 445] "" false false.
Proof.
  destruct (joinPorts_order_free true [445; 139] [139; 445] "" false false)
    as [Hperm _].
  apply Hperm, perm_swap.
Defined.

(** * Colour *)

Lemma allChars_app (f : ascii → bool) (a b : string) :
  allChars f (a +:+ b) = allChars f a && allChars f b.
Proof.
  induction a as [|c a IH]; [done|].
  rewrite string_app_cons. simpl. by rewrite IH, andb_assoc.
Qed.

Lemma allChars_impl (f g : ascii → bool) (s : string) :
  (∀ c, f c = true → g c = true) →
  allChars f s = true → allChars g s = true.
Proof.
  intros Hfg. induction s as [|c s IH]; simpl; [done|].
  rewrite !andb_true_iff. intros [Hc Hs]. auto.
Qed.

Lemma plain_app (a b : string) : plain (a +:+ b) = plain a && plain b.
Proof. apply allChars_app. Qed.

Lemma plain_concat (sep : string) (l : list string) :
  plain sep = true → Forall (fun s => plain s = true) l →
  plain (String.concat sep l) = true.
Proof.
  intros Hsep. induction 1 as [|s l Hs Hl IH]; [done|].
  destruct l as [|s' l]; [done|].
  change (String.concat sep (s :: s' :: l))
    with (s +:+ sep +:+ String.concat sep (s' :: l)).
  by rewrite !plain_app, Hs, Hsep, IH.
Qed.

Lemma string_of_uint_digits (d : Decimal.uint) :
  allChars isDigit (NilEmpty.string_of_uint d) = true.
Proof. induction d; simpl; by rewrite ?IHd. Qed.

Lemma isDigit_not_ESC (c : ascii) :
  isDigit c = true → negb (bool_decide (c = "027"%char)) = true.
Proof. intros Hc. case_bool_decide; [by subst c|done]. Qed.

Lemma Itoa_plain (p : Z) : plain (Itoa p) = true.
Proof.
  assert (∀ d, plain (NilZero.string_of_uint d) = true) as Hu.
  { intros d. unfold NilZero.string_of_uint.
    destruct d; try done;
      apply (allChars_impl isDigit _ _ isDigit_not_ESC);
      apply (string_of_uint_digits (_ d)). }
  unfold Itoa. destruct (Z.to_int p) as [d|d]; simpl; [apply Hu|].
  apply (Hu d).
Qed.

Lemma joinParts_plain (ports : list Z) (colour : string)
    (boldOn faintOn : bool) :
  plain (joinParts true ports colour boldOn faintOn) = true.
Proof.
  unfold joinParts. apply plain_concat; [done|].
  apply Forall_forall.
  intros s [p [<- _]]%list_elem_of_In%in_map_iff. apply Itoa_plain.
Qed.

Lemma outcomeLine_plain (name : string) (required present missing : list Z) :
  plain name = true →
  plain (outcomeLine true name required present missing) = true.
Proof.
  intros Hname. unfold outcomeLine, style.
  rewrite !plain_app, Hname, !joinParts_plain.
  destruct present, missing; by rewrite ?plain_app, ?joinParts_plain.
Qed.

Lemma outcomeLine_coloured (name : string)
    (required present missing : list Z) :
  plain (outcomeLine false name required present missing) = false.
Proof. unfold outcomeLine. by rewrite plain_app. Qed.

(** X7. With colour off the report holds no escape byte, for every port
    set and every catalog whose names hold none. With colour on the
    report always holds one, whatever the port set and the catalog. *)
Theorem report_plain_iff_no_colour (cat : list Signature) (P : gset Z) :
  (Forall (fun sig => plain (Name sig) = true) cat →
   plain (mainReport true cat P).1 = true)
  ∧ plain (mainReport false cat P).1 = false.
Proof.
  destruct (decide (P = ∅)) as [->|HP].
  { rewrite !mainReport_empty. by split. }
  rewrite !mainReport_nonempty by done. cbn [fst]. split.
  - intros Hnames. rewrite !plain_app.
    rewrite plain_concat; [by destruct (matching P cat)|done|].
    apply Forall_forall.
    intros s (sig & <- & Hin)%list_elem_of_In%in_map_iff.
    rewrite printSignature_text. apply outcomeLine_plain.
    apply list_elem_of_In, elem_of_matching in Hin as [Hin _].
    by apply (proj1 (Forall_forall _ _) Hnames).
  - destruct (matching P cat) as [|sig l]; [by rewrite plain_app|].
    cbn [map]. rewrite concat_lines_cons, printSignature_text.
    by rewrite !plain_app, outcomeLine_coloured.
Qed.

Lemma report_plain_iff_no_colour_witness :
  plain (mainReport true knownSignatures {[135; 139; 445]}).1 = true.
Proof.
  destruct (report_plain_iff_no_colour knownSignatures {[135; 139; 445]})
    as [Hoff _].
  apply Hoff.
  unfold knownSignatures. repeat (constructor; [reflexivity|]). constructor.
Defined.

(** X8. [main] prints without any escape byte exactly when colour has been
    switched off, by the flag or by a value of [NO_COLOR] that is not
    empty; the environment variable alone is enough, whatever the flag. *)
Theorem main_colour_switch (flag : bool) (env : string)
    (args : list string) (fs : string → option file) (out : string) :
  main flag env args fs = Printed out →
  plain out = (if bool_decide (env ≠ "") then true else flag).
Proof.
  unfold main. destruct args as [|path [|]]; try done.
  destruct (parseNmap fs path) as [P [err|]]; [done|].
  intros [= <-].
  destruct (report_plain_iff_no_colour knownSignatures P) as [Hoff Hon].
  assert (Forall (fun sig => plain (Name sig) = true) knownSignatures)
    as Hnames.
  { unfold knownSignatures. repeat (constructor; [reflexivity|]).
    constructor. }
  case_bool_decide; [auto|]. destruct flag; auto.
Qed.

Lemma main_colour_switch_witness :
  plain (noOpenPorts true) = true.
Proof.
  exact (main_colour_switch false "1" ["scan.nmap"]
           (fun _ => Some (mkFile "" false)) (noOpenPorts true) eq_refl).
Defined.

(** * How [main] ends *)

Lemma scanTokens_error (lines : list string) :
  (scanTokens lines).2 = None ∨ (scanTokens lines).2 = Some ErrTooLong.
Proof.
  induction lines as [|l lines IH]; simpl; [by left|].
  case_bool_decide; [by right|].
  by destruct (scanTokens lines) as [tokens err].
Qed.

(** How [main] ends, case by case. *)
Lemma main_outcomes (flag : bool) (env : string) (args : list string)
    (fs : string → option file) :
  (main flag env args fs = Usage ↔ length args ≠ 1%nat)
  ∧ (∀ path, fs path = None →
       main flag env [path] fs = Fatal path ErrOpen)
  ∧ (∀ path f, fs path = Some f →
       ¬ Forall (fun l => Z.of_nat (String.length l) < MaxScanTokenSize)
           (splitLines "" (bytes f)) →
       main flag env [path] fs = Fatal path ErrTooLong)
  ∧ (∀ path f, fs path = Some f →
       Forall (fun l => Z.of_nat (String.length l) < MaxScanTokenSize)
         (splitLines "" (bytes f)) →
       failed f = true →
       main flag env [path] fs = Fatal path ErrRead)
  ∧ (∀ path f, fs path = Some f →
       Forall (fun l => Z.of_nat (String.length l) < MaxScanTokenSize)
         (splitLines "" (bytes f)) →
       failed f = false →
       main flag env [path] fs
       = Printed (mainReport (if bool_decide (env ≠ "") then true else flag)
                    knownSignatures (parseData (bytes f)).1).1).
Proof.
  assert (∀ path, main flag env [path] fs
                  = match (parseNmap fs path).2 with
                    | Some err => Fatal path err
                    | None =>
                      Printed
                        (mainReport
                           (if bool_decide (env ≠ "") then true else flag)
                           knownSignatures (parseNmap fs path).1).1
                    end) as Hmain.
  { intros path. unfold main. by destruct (parseNmap fs path) as [P [e|]]. }
  split; [|split; [|split; [|split]]].
  - unfold main. destruct args as [|path [|]]; simpl; try done.
    destruct (parseNmap fs path) as [P [err|]]; done.
  - intros path Hfs. by rewrite Hmain, parseNmap_err, Hfs.
  - intros path f Hfs Hlong. rewrite Hmain, parseNmap_err, Hfs.
    rewrite <-scanTokens_no_error in Hlong.
    by destruct (scanTokens_error (splitLines "" (bytes f))) as [Hn | ->].
  - intros path f Hfs Hshort Hfail. rewrite Hmain, parseNmap_err, Hfs.
    apply scanTokens_no_error in Hshort. by rewrite Hshort, Hfail.
  - intros path f Hfs Hshort Hfail.
    rewrite Hmain, parseNmap_err, parseNmap_ports, Hfs.
    apply scanTokens_no_error in Hshort. rewrite Hshort, Hfail.
    unfold parseData, scanned.
    by destruct (scanTokens (splitLines "" (bytes f))).
Qed.

(** X9. From the return of [flag.Parse] on, [main] ends in exactly one of
    these ways, decided in this order. It prints the usage text exactly
    when the number of arguments left is not one. With one argument, a
    file that cannot be opened is fatal; a file in which a line of
    [MaxScanTokenSize] bytes or more is reached is fatal with
    [ErrTooLong], and nothing is printed for the ports read before that
    line; a file whose reading fails (a directory fails at its first read)
    is fatal with the read error; every other file gives the report of its
    port set over the built-in catalog. *)
Theorem main_endings (flag : bool) (env : string) (args : list string)
    (fs : string → option file) :
  (main flag env args fs = Usage ↔ length args ≠ 1%nat)
  ∧ (∀ path,
       main flag env [path] fs
       = match fs path with
         | None => Fatal path ErrOpen
         | Some f =>
           if bool_decide
                (Forall (fun l => Z.of_nat (String.length l)
                                  < MaxScanTokenSize)
                        (splitLines "" (bytes f)))
           then
             if failed f then Fatal path ErrRead
             else
               Printed
                 (mainReport (if bool_decide (env ≠ "") then true else flag)
                    knownSignatures
                    (foldl scanStep ∅ (map dropCR (splitLines "" (bytes f))))).1
           else Fatal path ErrTooLong
         end)
  ∧ main flag env ["."] (fun _ => Some (mkFile "" true))
    = Fatal "." ErrRead.
Proof.
  destruct (main_outcomes flag env args fs) as (Husage & _).
  split; [done|]. split; [|done].
  intros path.
  destruct (main_outcomes flag env [path] fs)
    as (_ & Hopen & Hlong & Hread & Hprint).
  destruct (fs path) as [f|] eqn:Hfs; [|by apply Hopen].
  destruct (decide (Forall (fun l => Z.of_nat (String.length l)
                                     < MaxScanTokenSize)
                      (splitLines "" (bytes f)))) as [Hshort|Hnot].
  2: { rewrite (bool_decide_eq_false_2 _ Hnot). by apply (Hlong path f). }
  rewrite (bool_decide_eq_true_2 _ Hshort).
  destruct (failed f) eqn:Hfail; [by apply (Hread path f)|].
  rewrite (Hprint path f) by done.
  assert ((parseData (bytes f)).1
          = foldl scanStep ∅ (map dropCR (splitLines "" (bytes f))))
    as ->; [|done].
  unfold parseData.
  pose proof (proj2 (scanTokens_no_error _) Hshort) as Herr.
  pose proof (scanTokens_all _ Herr) as Hall.
  destruct (scanTokens (splitLines "" (bytes f))) as [tokens err].
  simpl in *. by subst.
Qed.

(** X10. A report that opens, has no line too long, and in which every
    scanned line that has the form of the pattern carries a digit run of
    value zero, prints the line saying that no open port was found and
    nothing else. The empty file is such a report. *)
Theorem main_no_open_ports (flag : bool) (env path data : string)
    (fs : string → option file) :
  fs path = Some (mkFile data false) →
  Forall (fun l => Z.of_nat (String.length l) < MaxScanTokenSize)
    (splitLines "" data) →
  (∀ text ds,
     text ∈ scanned data → startsOpenLine (TrimSpace text) ds →
     Atoi ds ≤ 0) →
  main flag env [path] fs
  = Printed (noOpenPorts (if bool_decide (env ≠ "") then true else flag)).
Proof.
  intros Hfs Hshort Hzero.
  destruct (main_outcomes flag env [path] fs) as (_ & _ & _ & _ & Hprint).
  rewrite (Hprint path (mkFile data false) Hfs Hshort eq_refl).
  cbn [bytes].
  assert ((parseData data).1 = ∅) as ->; [|by rewrite mainReport_empty].
  apply set_eq. intros p. unfold parseData. fold (scanned data).
  destruct (scanTokens (splitLines "" data)) as [tokens err] eqn:Hs.
  unfold scanned in Hzero. rewrite Hs in Hzero. cbn [fst] in *.
  rewrite scan_fold. split; [|set_solver].
  intros [Hp|(Hp & text & ds & Hin & Hds & Ha)]; [set_solver|].
  specialize (Hzero text ds Hin Hds). lia.
Qed.

Lemma main_no_open_ports_witness :
  main false "" ["scan.nmap"] (fun _ => Some (mkFile "0/tcp open" false))
  = Printed (noOpenPorts false)
  ∧ main true "" ["scan.nmap"] (fun _ => Some (mkFile "" false))
    = Printed (noOpenPorts true).
Proof.
  split.
  - apply (main_no_open_ports false "" "scan.nmap" "0/tcp open"
             (fun _ => Some (mkFile "0/tcp open" false)) eq_refl).
    + repeat constructor.
    + intros text ds Hin Hds. apply reFindStringSubmatch_spec in Hds.
      apply list_elem_of_singleton in Hin as ->.
      vm_compute in Hds. injection Hds as <-. by vm_compute.
  - apply (main_no_open_ports true "" "scan.nmap" ""
             (fun _ => Some (mkFile "" false)) eq_refl).
    + constructor.
    + intros text ds Hin. inversion Hin.
Defined.

(** * The file and its lines *)

(** X11. The port set is the union of what each scanned line gives:
    scanning two runs of lines one after the other gives the union of
    their port sets, so the order of the lines and their repetition do not
    change the result, and a port once found is never removed. *)
Theorem ports_union_of_lines (ports : gset Z) (t1 t2 : list string) :
  foldl scanStep ports (t1 ++ t2)
  = foldl scanStep ports t1 ∪ foldl scanStep ∅ t2
  ∧ (t1 ≡ₚ t2 → foldl scanStep ports t1 = foldl scanStep ports t2)
  ∧ foldl scanStep ports (t1 ++ t1) = foldl scanStep ports t1
  ∧ (∀ p, p ∈ ports → p ∈ foldl scanStep ports t1).
Proof.
  split; [|split; [|split]].
  - apply set_eq. intros p.
    rewrite elem_of_union, !scan_fold. setoid_rewrite elem_of_app.
    split; [|set_solver].
    intros [?|(? & text & ds & [?|?] & ?)]; [by left; left| |].
    + left; right. split; [done|]. by exists text, ds.
    + right; right. split; [done|]. by exists text, ds.
  - intros Hperm. apply set_eq. intros p. rewrite !scan_fold.
    by setoid_rewrite Hperm.
  - apply set_eq. intros p. rewrite !scan_fold.
    setoid_rewrite elem_of_app. split; [|set_solver].
    intros [?|(? & text & ds & [?|?] & ?)]; [by left|right..];
      (split; [done|]); by exists text, ds.
  - intros p Hp. apply scan_fold. by left.
Qed.

Lemma ports_union_of_lines_witness :
  foldl scanStep ∅ ["22/tcp open"; "80/tcp open"]
  = foldl scanStep ∅ ["80/tcp open"; "22/tcp open"].
Proof.
  destruct (ports_union_of_lines ∅ ["22/tcp open"; "80/tcp open"]
              ["80/tcp open"; "22/tcp open"]) as (_ & Hperm & _).
  apply Hperm, perm_swap.
Defined.

(** X12. A file written as lines that hold no line feed, each ended by a
    line feed, with or without a last line left open, is cut back into
    exactly those lines (an empty last line is no line). When all of them
    are shorter than [MaxScanTokenSize] the parser returns no error and the
    port set of these lines, each without its trailing carriage return. *)
Theorem parse_file_by_lines (lines : list string) (last : string) :
  Forall (fun l => noLF l = true) lines → noLF last = true →
  let all := lines ++ (if bool_decide (last = "") then [] else [last]) in
  splitLines "" (unlines lines +:+ last) = all
  ∧ (Forall (fun l => Z.of_nat (String.length l) < MaxScanTokenSize) all →
     parseData (unlines lines +:+ last)
     = (foldl scanStep ∅ (map dropCR all), None)).
Proof.
  intros Hlines Hlast. cbv zeta.
  split; [by apply splitLines_unlines|].
  intros Hshort. unfold parseData. rewrite splitLines_unlines by done.
  pose proof (proj2 (scanTokens_no_error _) Hshort) as Herr.
  pose proof (scanTokens_all _ Herr) as Hall.
  destruct (scanTokens _) as [tokens err]. simpl in *. by subst.
Qed.

Lemma parse_file_by_lines_witness :
  splitLines "" (unlines ["22/tcp open ssh"; ""] +:+ "80/tcp open")
  = ["22/tcp open ssh"; ""; "80/tcp open"].
Proof.
  destruct (parse_file_by_lines ["22/tcp open ssh"; ""] "80/tcp open")
    as [Hsplit _].
  - repeat constructor.
  - reflexivity.
  - exact Hsplit.
Defined.

(** X13. The scan stops at the first line of [MaxScanTokenSize] bytes or
    more: the parser returns [ErrTooLong] together with the ports of the
    lines before it, and the lines after it are not read. *)
Theorem scan_stops_at_long_line (good rest : list string) (long : string) :
  Forall (fun l => noLF l = true) (good ++ long :: rest) →
  Forall (fun l => Z.of_nat (String.length l) < MaxScanTokenSize) good →
  MaxScanTokenSize ≤ Z.of_nat (String.length long) →
  parseData (unlines (good ++ long :: rest))
  = (foldl scanStep ∅ (map dropCR good), Some ErrTooLong).
Proof.
  intros Hlf Hgood Hlong. unfold parseData.
  rewrite <-(string_app_nil_r (unlines _)).
  rewrite splitLines_unlines by done. rewrite app_nil_r.
  assert (scanTokens (good ++ long :: rest)
          = (map dropCR good, Some ErrTooLong)) as ->; [|done].
  induction Hgood as [|l good Hl _ IH]; simpl.
  - by rewrite bool_decide_eq_true_2.
  - rewrite bool_decide_eq_false_2 by lia.
    apply Forall_cons in Hlf as [_ Hlf]. by rewrite IH.
Qed.

Lemma scan_stops_at_long_line_witness :
  parseData (unlines (["22/tcp open"] ++ longLine :: ["80/tcp open"]))
  = (foldl scanStep ∅ (map dropCR ["22/tcp open"]), Some ErrTooLong).
Proof.
  apply (scan_stops_at_long_line ["22/tcp open"] ["80/tcp open"] longLine).
  - repeat (constructor; [by vm_compute|]). constructor.
  - repeat constructor.
  - by vm_compute.
Defined.

(** * Trimming *)

Lemma rev_app_spec (s1 s2 : string) :
  String.rev_app s1 s2 = String.rev s1 +:+ s2.
Proof.
  revert s2. induction s1 as [|a s1 IH]; intros s2; [done|].
  unfold String.rev. cbn [String.rev_app].
  rewrite (IH (String a s2)), (IH (String a "")).
  by rewrite string_app_assoc.
Qed.

Lemma rev_cons (a : ascii) (s : string) :
  String.rev (String a s) = String.rev s +:+ String a "".
Proof. unfold String.rev at 1. cbn [String.rev_app]. apply rev_app_spec. Qed.

Lemma rev_append (a b : string) :
  String.rev (a +:+ b) = String.rev b +:+ String.rev a.
Proof.
  induction a as [|c a IH].
  - by rewrite string_app_nil_l, string_app_nil_r.
  - by rewrite string_app_cons, !rev_cons, IH, string_app_assoc.
Qed.

Lemma rev_involutive (s : string) : String.rev (String.rev s) = s.
Proof.
  induction s as [|c s IH]; [done|]. by rewrite rev_cons, rev_append, IH.
Qed.

Ltac low_byte c :=
  repeat (rewrite (proj2 (N.eqb_neq (code c) _)) by lia);
  repeat (rewrite (proj2 (N.leb_gt _ (code c))) by lia);
  rewrite ?andb_false_r, ?andb_false_l, ?orb_false_r, ?orb_false_l;
  try done.

Lemma low_not_space2 (c b : ascii) :
  (code c < 128)%N → isSpace2 c b = false ∧ isSpace2 b c = false.
Proof. intros Hc. unfold isSpace2. split; low_byte c. Qed.

Lemma low_not_space3 (c a b : ascii) :
  (code c < 128)%N →
  isSpace3 c a b = false ∧ isSpace3 a c b = false ∧ isSpace3 a b c = false.
Proof. intros Hc. unfold isSpace3. repeat split; low_byte c. Qed.

Lemma solid_low (c : ascii) :
  solid c = true → (code c < 128)%N ∧ isSpace1 c = false.
Proof.
  unfold solid. rewrite andb_true_iff, N.ltb_lt, negb_true_iff. done.
Qed.

Lemma isDigit_solid (c : ascii) : isDigit c = true → solid c = true.
Proof.
  unfold isDigit, solid, isSpace1.
  rewrite !andb_true_iff, !N.leb_le, N.ltb_lt, negb_true_iff.
  intros [H1 H2]. split; [lia|].
  rewrite (proj2 (N.leb_gt _ 13)) by lia.
  rewrite (proj2 (N.eqb_neq _ 32)) by lia. by rewrite andb_false_r.
Qed.

(** A solid byte stops the scan, from either end. *)
Lemma trimSpaces_solid (fromEnd : bool) (c : ascii) (s : string) :
  solid c = true → trimSpaces fromEnd (String c s) = String c s.
Proof.
  intros [Hlow Hsp]%solid_low. cbn [trimSpaces]. rewrite Hsp.
  destruct s as [|b s]; [done|].
  destruct (low_not_space2 c b Hlow) as [-> ->].
  destruct s as [|d s]; [by destruct fromEnd|].
  destruct (low_not_space3 c b d Hlow) as (-> & _ & _).
  destruct (low_not_space3 c d b Hlow) as (_ & _ & ->).
  by destruct fromEnd.
Qed.

Lemma trimSpaces_lead (lead s : string) :
  allChars isSpace1 lead = true →
  trimSpaces false (lead +:+ s) = trimSpaces false s.
Proof.
  induction lead as [|a lead IH]; [done|]. cbn [allChars].
  intros [Ha Hl]%andb_true_iff. rewrite string_app_cons.
  cbn [trimSpaces]. rewrite Ha. auto.
Qed.

(** What the scan removes is a prefix of the string. *)
Lemma trimSpaces_suffix (fromEnd : bool) (s : string) :
  ∃ pre, s = pre +:+ trimSpaces fromEnd s.
Proof.
  assert (∀ n s, (String.length s ≤ n)%nat →
                 ∃ pre, s = pre +:+ trimSpaces fromEnd s) as Hn;
    [|by apply (Hn (String.length s))].
  clear s. induction n as [|n IH]; intros s Hlen.
  { destruct s; [by exists ""|simpl in Hlen; lia]. }
  destruct s as [|a s1]; [by exists ""|].
  cbn [String.length] in Hlen. cbn [trimSpaces].
  destruct (isSpace1 a).
  { destruct (IH s1) as [pre Hpre]; [lia|].
    exists (String a pre). by rewrite string_app_cons, <-Hpre. }
  destruct s1 as [|b s2]; [by exists ""|].
  cbn [String.length] in Hlen.
  destruct (if fromEnd then isSpace2 b a else isSpace2 a b).
  { destruct (IH s2) as [pre Hpre]; [lia|].
    exists (String a (String b pre)). by rewrite !string_app_cons, <-Hpre. }
  destruct s2 as [|d s3]; [by exists ""|].
  cbn [String.length] in Hlen.
  destruct (if fromEnd then isSpace3 d b a else isSpace3 a b d);
    [|by exists ""].
  destruct (IH s3) as [pre Hpre]; [lia|].
  exists (String a (String b (String d pre))).
  by rewrite !string_app_cons, <-Hpre.
Qed.

(** The scan from the end never goes past a solid byte. *)
Lemma trimSpaces_keeps (c : ascii) (x y : string) :
  solid c = true →
  ∃ x', trimSpaces true (x +:+ String c y) = x' +:+ String c y.
Proof.
  intros Hc. destruct (solid_low c Hc) as [Hlow Hsp].
  assert (∀ n x, (String.length x ≤ n)%nat →
                 ∃ x', trimSpaces true (x +:+ String c y)
                       = x' +:+ String c y) as Hn;
    [|by apply (Hn (String.length x))].
  clear x. induction n as [|n IH]; intros x Hlen.
  { destruct x; [|simpl in Hlen; lia]. exists "".
    rewrite !string_app_nil_l. by apply trimSpaces_solid. }
  destruct x as [|a x1].
  { exists "". rewrite !string_app_nil_l. by apply trimSpaces_solid. }
  cbn [String.length] in Hlen. rewrite string_app_cons.
  cbn [trimSpaces]. destruct (isSpace1 a).
  { apply IH. lia. }
  destruct x1 as [|b x2].
  { rewrite string_app_nil_l.
    destruct (low_not_space2 c a Hlow) as [-> _].
    exists (String a ""). destruct y as [|d y]; [done|].
    by destruct (low_not_space3 c d a Hlow) as (_ & -> & _). }
  cbn [String.length] in Hlen. rewrite string_app_cons.
  destruct (isSpace2 b a).
  { apply IH. lia. }
  destruct x2 as [|d x3].
  { rewrite string_app_nil_l.
    destruct (low_not_space3 c b a Hlow) as (-> & _ & _).
    by exists (String a (String b "")). }
  cbn [String.length] in Hlen. rewrite string_app_cons.
  destruct (isSpace3 d b a).
  { apply IH. lia. }
  by exists (String a (String b (String d x3))).
Qed.

(** [TrimSpace] keeps a prefix of what is left once the leading white
    space is removed. *)
Lemma TrimSpace_prefix (s : string) :
  ∃ tail, trimSpaces false s = TrimSpace s +:+ tail.
Proof.
  unfold TrimSpace.
  destruct (trimSpaces_suffix true (String.rev (trimSpaces false s)))
    as [pre Hpre].
  exists (String.rev pre).
  by rewrite <-rev_append, <-Hpre, rev_involutive.
Qed.

(** Leading ASCII white space goes, and the text from a solid byte up to
    a later solid byte stays. *)
Lemma TrimSpace_keeps (lead body rest : string) (c e : ascii) :
  allChars isSpace1 lead = true → solid c = true → solid e = true →
  ∃ rest',
    TrimSpace (lead +:+ String c (body +:+ String e rest))
    = String c (body +:+ String e rest').
Proof.
  intros Hlead Hc He. unfold TrimSpace.
  rewrite trimSpaces_lead, trimSpaces_solid by done.
  change (String c (body +:+ String e rest))
    with (String c body +:+ String e rest).
  rewrite rev_append, (rev_cons e), string_app_assoc.
  rewrite (string_app_cons e), string_app_nil_l.
  destruct (trimSpaces_keeps e (String.rev rest)
              (String.rev (String c body)) He) as [x' ->].
  exists (String.rev x').
  rewrite rev_append, (rev_cons e), rev_involutive, string_app_assoc.
  by rewrite (string_app_cons e), string_app_nil_l.
Qed.

(** * Lines that give a port, and lines that do not *)

Lemma isReSpace_isSpace1 (c : ascii) : isReSpace c = true → isSpace1 c = true.
Proof.
  unfold isReSpace, isSpace1. generalize (code c). intros n.
  destruct n as [|q]; [done|].
  do 6 (destruct q as [q|q|]; try done).
Qed.

Lemma solid_not_reSpace (c : ascii) : solid c = true → isReSpace c = false.
Proof.
  intros [_ Hsp]%solid_low. destruct (isReSpace c) eqn:Hc; [|done].
  apply isReSpace_isSpace1 in Hc. congruence.
Qed.

Lemma solid_not_digit_head (c : ascii) (r : string) :
  isDigit c = false → reFindStringSubmatch (String c r) = None.
Proof. intros Hc. unfold reFindStringSubmatch. simpl. by rewrite Hc. Qed.

Lemma reFindStringSubmatch_extend (line tail ds : string) :
  reFindStringSubmatch line = Some ds →
  reFindStringSubmatch (line +:+ tail) = Some ds.
Proof.
  rewrite !reFindStringSubmatch_spec.
  intros (ws & rest & ? & ? & ? & ? & ->).
  exists ws, (rest +:+ tail). by rewrite !string_app_assoc.
Qed.

Lemma scanStep_none (ports : gset Z) (text : string) :
  reFindStringSubmatch (trimSpaces false text) = None →
  scanStep ports text = ports.
Proof.
  intros Hnone. unfold scanStep.
  destruct (reFindStringSubmatch (TrimSpace text)) as [ds|] eqn:Hm; [|done].
  destruct (TrimSpace_prefix text) as [tail Htail].
  apply (reFindStringSubmatch_extend _ tail) in Hm.
  rewrite <-Htail in Hm. congruence.
Qed.

Lemma digits_head (ds : string) :
  ds ≠ "" → allChars isDigit ds = true →
  ∃ c ds', ds = String c ds' ∧ solid c = true.
Proof.
  destruct ds as [|c ds']; [done|]. intros _ [Hc _]%andb_true_iff.
  exists c, ds'. split; [done|]. by apply isDigit_solid.
Qed.

(** X14. A line is recognised whatever ASCII white space comes before the
    port and whatever text follows [open]: when it is made of blanks, a
    run of digits, [/tcp], white space of the pattern, [open] and any
    rest, the value of the digit run is added to the set if it is
    positive, and the set is left as it is otherwise. *)
Theorem open_line_recognised (ports : gset Z) (lead ds ws rest : string) :
  allChars isSpace1 lead = true →
  ds ≠ "" → allChars isDigit ds = true →
  ws ≠ "" → allChars isReSpace ws = true →
  scanStep ports (lead +:+ ds +:+ "/tcp" +:+ ws +:+ "open" +:+ rest)
  = if bool_decide (0 < Atoi ds) then {[Atoi ds]} ∪ ports else ports.
Proof.
  intros Hlead Hne Hds Hwne Hws.
  destruct (digits_head ds Hne Hds) as (c & ds' & Hc & Hsolid).
  assert (∃ rest', TrimSpace (lead +:+ ds +:+ "/tcp" +:+ ws +:+ "open" +:+ rest)
                   = ds +:+ "/tcp" +:+ ws +:+ "open" +:+ rest')
    as [rest' Htrim].
  { destruct (TrimSpace_keeps lead (ds' +:+ "/tcp" +:+ ws +:+ "ope") rest
                c "n"%char Hlead Hsolid eq_refl) as [rest' Hk].
    exists rest'. subst ds.
    rewrite !string_app_assoc in Hk. rewrite string_app_cons. exact Hk. }
  unfold scanStep. rewrite Htrim.
  assert (reFindStringSubmatch (ds +:+ "/tcp" +:+ ws +:+ "open" +:+ rest')
          = Some ds) as ->; [|done].
  apply reFindStringSubmatch_spec. by exists ws, rest'.
Qed.

Lemma open_line_recognised_witness :
  scanStep ∅ ("  " +:+ "445" +:+ "/tcp" +:+ "  " +:+ "open"
              +:+ "  microsoft-ds ")
  = {[Atoi "445"]} ∪ ∅.
Proof.
  exact (open_line_recognised ∅ "  " "445" "  " "  microsoft-ds "
           eq_refl ltac:(discriminate) eq_refl ltac:(discriminate) eq_refl).
Defined.

(** X15. Lines that never give a port, whatever ASCII white space comes
    first: a line that starts with a solid byte other than a digit
    (headers, comments, host lines); a port line of another protocol,
    such as [/udp]; a [/tcp] line whose state does not begin with [open]
    (closed, filtered, or [Open] in another case); a blank line. *)
Theorem other_lines_ignored (ports : gset Z) (lead : string) :
  allChars isSpace1 lead = true →
  (∀ c r, solid c = true → isDigit c = false →
          scanStep ports (lead +:+ String c r) = ports)
  ∧ (∀ ds r, ds ≠ "" → allChars isDigit ds = true →
             scanStep ports (lead +:+ ds +:+ "/udp" +:+ r) = ports)
  ∧ (∀ ds ws c r,
       ds ≠ "" → allChars isDigit ds = true →
       allChars isReSpace ws = true →
       solid c = true → stripPrefix "open" (String c r) = None →
       scanStep ports (lead +:+ ds +:+ "/tcp" +:+ ws +:+ String c r) = ports)
  ∧ scanStep ports lead = ports.
Proof.
  intros Hlead. split; [|split; [|split]].
  - intros c r Hc Hd. apply scanStep_none.
    rewrite trimSpaces_lead, trimSpaces_solid by done.
    by apply solid_not_digit_head.
  - intros ds r Hne Hds. apply scanStep_none.
    destruct (digits_head ds Hne Hds) as (c & ds' & Hc & Hsolid).
    rewrite trimSpaces_lead by done.
    rewrite Hc at 1. rewrite string_app_cons, trimSpaces_solid by done.
    rewrite <-string_app_cons, <-Hc. unfold reFindStringSubmatch.
    rewrite spanDigits_app by done.
    by rewrite bool_decide_eq_false_2.
  - intros ds ws c r Hne Hds Hws Hc Hopen. apply scanStep_none.
    destruct (digits_head ds Hne Hds) as (c0 & ds' & Hc0 & Hsolid).
    rewrite trimSpaces_lead by done.
    rewrite Hc0 at 1. rewrite string_app_cons, trimSpaces_solid by done.
    rewrite <-string_app_cons, <-Hc0. unfold reFindStringSubmatch.
    rewrite spanDigits_app by done.
    rewrite bool_decide_eq_false_2 by done.
    replace (stripPrefix "/tcp" _) with (Some (ws +:+ String c r))
      by (symmetry; by apply stripPrefix_spec).
    pose proof (solid_not_reSpace c Hc) as Hnsp.
    destruct ws as [|w ws].
    + rewrite string_app_nil_l. by rewrite Hnsp.
    + simpl in Hws. apply andb_true_iff in Hws as [Hw Hws].
      rewrite string_app_cons, Hw, skipReSpace_app by done.
      by rewrite Hopen.
  - apply scanStep_none. rewrite <-(string_app_nil_r lead).
    by rewrite trimSpaces_lead.
Qed.

Lemma other_lines_ignored_witness :
  scanStep {[22]} ("  " +:+ "80" +:+ "/tcp" +:+ " " +:+ "closed http")
  = {[22]}
  ∧ scanStep {[22]} ("  " +:+ "53" +:+ "/udp" +:+ " open domain") = {[22]}
  ∧ scanStep {[22]} ("  " +:+ "PORT   STATE SERVICE") = {[22]}.
Proof.
  destruct (other_lines_ignored {[22]} "  " eq_refl)
    as (Hhead & Hudp & Hstate & _).
  split; [|split].
  - apply (Hstate "80" " " "c"%char "losed http");
      by (discriminate || reflexivity).
  - apply (Hudp "53" " open domain"); by (discriminate || reflexivity).
  - apply (Hhead "P"%char "ORT   STATE SERVICE"); reflexivity.
Defined.

(** * Printing a port and reading it back *)

Lemma decimal_uint_acc (d : Decimal.uint) (acc : positive) :
  foldl (fun n ch => n * 10 + (Z.of_N (code ch) - 48)) (Z.pos acc)
        (String.list_ascii_of_string (NilEmpty.string_of_uint d))
  = Z.pos (Pos.of_uint_acc d acc).
Proof.
  revert acc. induction d as [|d IH|d IH|d IH|d IH|d IH|d IH|d IH|d IH|d IH|d IH];
    intros acc; [done|..];
    cbn [NilEmpty.string_of_uint String.list_ascii_of_string foldl
         Pos.of_uint_acc];
    rewrite <-IH; f_equal; cbn; lia.
Qed.

Lemma decimal_uint (d : Decimal.uint) :
  decimal (NilEmpty.string_of_uint d) = Z.of_N (Pos.of_uint d).
Proof.
  unfold decimal.
  induction d as [|d IH|d IH|d IH|d IH|d IH|d IH|d IH|d IH|d IH|d IH];
    [done|exact IH|..];
    cbn [NilEmpty.string_of_uint String.list_ascii_of_string foldl
         Pos.of_uint];
    apply decimal_uint_acc.
Qed.

Lemma string_of_uint_facts (d : Decimal.uint) :
  allChars isDigit (NilZero.string_of_uint d) = true
  ∧ NilZero.string_of_uint d ≠ ""
  ∧ decimal (NilZero.string_of_uint d) = Z.of_N (Pos.of_uint d).
Proof.
  unfold NilZero.string_of_uint.
  destruct d; [done|..];
    (split; [apply (string_of_uint_digits (_ d))|]);
    (split; [done|]); apply (decimal_uint (_ d)).
Qed.

(** X16. The digits [strconv.Itoa] prints for an integer that is not
    negative are decimal digits, at least one, and [strconv.Atoi] reads
    them back as the same integer when it fits an [int], and as the
    largest [int] when it does not. *)
Theorem Itoa_Atoi_round_trip (p : Z) :
  0 ≤ p →
  allChars isDigit (Itoa p) = true
  ∧ Itoa p ≠ ""
  ∧ decimal (Itoa p) = p
  ∧ Atoi (Itoa p) = Z.min p maxInt.
Proof.
  intros Hp.
  assert (allChars isDigit (Itoa p) = true ∧ Itoa p ≠ ""
          ∧ decimal (Itoa p) = p) as (Hd & Hne & Hv).
  { destruct p as [|q|q]; [done| |lia].
    unfold Itoa. cbn [Z.to_int NilZero.string_of_int].
    destruct (string_of_uint_facts (Pos.to_uint q)) as (Hd & Hne & Hv).
    by rewrite DecimalPos.Unsigned.of_to in Hv. }
  split; [done|]. split; [done|]. split; [done|].
  by rewrite Atoi_min, Hv.
Qed.

Lemma Itoa_Atoi_round_trip_witness : Atoi (Itoa 65536) = Z.min 65536 maxInt.
Proof.
  apply (Itoa_Atoi_round_trip 65536). lia.
Defined.

(** X17. A port the program prints is a port it reads: for every integer
    [p] with [0 < p] that fits an [int], a line made of blanks, the digits
    [strconv.Itoa] gives for [p], [/tcp], white space, [open] and any
    rest adds exactly [p] to the port set. *)
Theorem printed_port_parses (ports : gset Z) (lead ws rest : string)
    (p : Z) :
  0 < p ≤ maxInt →
  allChars isSpace1 lead = true →
  ws ≠ "" → allChars isReSpace ws = true →
  scanStep ports (lead +:+ Itoa p +:+ "/tcp" +:+ ws +:+ "open" +:+ rest)
  = {[p]} ∪ ports.
Proof.
  intros [Hpos Hfit] Hlead Hwne Hws.
  destruct (Itoa_Atoi_round_trip p) as (Hd & Hne & _ & Ha); [lia|].
  rewrite open_line_recognised by done.
  rewrite Ha, Z.min_l by done. by rewrite bool_decide_eq_true_2.
Qed.

Lemma printed_port_parses_witness :
  scanStep ∅ ("" +:+ Itoa 3306 +:+ "/tcp" +:+ " " +:+ "open" +:+ "  mysql")
  = {[3306]} ∪ ∅.
Proof.
  apply (printed_port_parses ∅ "" " " "  mysql" 3306).
  - by vm_compute.
  - reflexivity.
  - discriminate.
  - reflexivity.
Defined.

(** * The earlier copy *)

Lemma earlier_printSignature_text (nc : bool) (P : gset Z)
    (sig : Signature) :
  (Earlier.printSignature nc P sig).1
  = earlierLines nc (Name sig) (sortInts (Required sig))
      (sortInts (presentOptional P (Optional sig)))
      (sortInts (diff (Optional sig) (presentOptional P (Optional sig)))).
Proof.
  unfold Earlier.printSignature, earlierLines, joinPorts.
  rewrite !length_pos_cons.
  destruct (Optional sig) as [|o opt] eqn:Hopt; simpl.
  { by rewrite !string_app_assoc, ?string_app_nil_r. }
  set (present := presentOptional P (o :: opt)).
  destruct present as [|x present'] eqn:Hpres; simpl.
  - set (missing := diff (o :: opt) []).
    rewrite length_pos_cons.
    destruct missing as [|y missing'] eqn:Hmiss; simpl.
    + by rewrite !string_app_assoc, ?string_app_nil_r.
    + destruct (sortInts (y :: missing')) eqn:Hs.
      { by apply sortInts_nil_inv in Hs. }
      by rewrite !string_app_assoc.
  - rewrite (diff_Permutation _ _ _ (sortInts_Permutation (x :: present'))).
    set (missing := diff (o :: opt) (x :: present')).
    rewrite length_pos_cons.
    destruct (sortInts (x :: present')) eqn:Hsp.
    { by apply sortInts_nil_inv in Hsp. }
    destruct missing as [|y missing'] eqn:Hmiss; simpl.
    + by rewrite !string_app_assoc, ?string_app_nil_r.
    + destruct (sortInts (y :: missing')) eqn:Hs.
      { by apply sortInts_nil_inv in Hs. }
      by rewrite !string_app_assoc.
Qed.

Lemma earlier_printSignature_sig (nc : bool) (P : gset Z) (sig : Signature) :
  (Earlier.printSignature nc P sig).2 = (printSignature nc P sig).2.
Proof.
  rewrite printSignature_sig.
  unfold Earlier.printSignature, joinPorts. simpl.
  repeat (case_bool_decide || simpl || destruct (joinPorts _ _ _ _ _)); done.
Qed.

Lemma earlier_loopBody_eq (nc : bool) (P : gset Z) (sig : Signature)
    (any : bool) (out : string) (visited : list Signature) :
  Earlier.loopBody nc P (any, out, visited) sig
  = if hasAll P (Required sig)
    then (true, out +:+ (Earlier.printSignature nc P sig).1,
          visited ++ [visit nc P sig])
    else (any, out, visited ++ [visit nc P sig]).
Proof.
  unfold Earlier.loopBody, visit.
  destruct (hasAll P (Required sig)); [|done].
  rewrite <-earlier_printSignature_sig.
  by destruct (Earlier.printSignature nc P sig).
Qed.

Lemma earlier_loop_acc (nc : bool) (P : gset Z) (cat : list Signature)
    (any : bool) (out : string) (visited : list Signature) :
  foldl (Earlier.loopBody nc P) (any, out, visited) cat
  = (any || match matching P cat with [] => false | _ => true end,
     out +:+ String.concat ""
               (map (fun sig => (Earlier.printSignature nc P sig).1)
                    (matching P cat)),
     visited ++ map (visit nc P) cat).
Proof.
  revert any out visited.
  induction cat as [|sig cat IH]; intros any out visited.
  - simpl. by rewrite orb_false_r, string_app_nil_r, app_nil_r.
  - change (foldl (Earlier.loopBody nc P) (any, out, visited) (sig :: cat))
      with (foldl (Earlier.loopBody nc P)
              (Earlier.loopBody nc P (any, out, visited) sig) cat).
    rewrite earlier_loopBody_eq. unfold matching. rewrite filter_cons.
    fold (matching P cat).
    destruct (hasAll P (Required sig)) eqn:Hm; rewrite IH.
    + destruct (decide _); [|done].
      rewrite orb_true_r. cbn [map]. rewrite concat_lines_cons.
      by rewrite string_app_assoc, <-app_assoc.
    + destruct (decide _); [done|]. by rewrite <-app_assoc.
Qed.

(** X18. The earlier copy of the program prints, for a port set that is
    not empty, one block for each signature of its catalog whose required
    ports are all open, in catalog order: a blank line, the header with
    the sorted required ports, then a line of its own for the optional
    ports present and one for those missing, each left out when its list
    is empty; the line saying that nothing was recognised follows when no
    signature matched, and no blank line ends the output. On an empty port
    set it prints the line saying that no open port was found. Its loop
    selects the signatures, sorts the port lists and leaves the catalog it
    is given exactly as the loop of the current program does, but the
    program runs it over its own catalog, so the two programs do not
    report the same signatures: with port 21 alone open the current
    program reports FTP and the earlier one reports nothing. *)
Theorem earlier_report (nc : bool) (cat : list Signature) (P : gset Z) :
  Earlier.mainReport nc cat ∅ = (noOpenPorts nc, cat)
  ∧ (P ≠ ∅ →
     (Earlier.mainReport nc cat P).1
     = String.concat ""
         (map (fun sig =>
                 earlierLines nc (Name sig) (sortInts (Required sig))
                   (sortInts (presentOptional P (Optional sig)))
                   (sortInts (diff (Optional sig)
                                (presentOptional P (Optional sig)))))
              (matching P cat))
       +:+ (match matching P cat with [] => noneRecognised nc | _ => "" end))
  ∧ (Earlier.mainReport nc cat P).2 = (mainReport nc cat P).2
  ∧ (∀ flag env path fs,
       parseNmap fs path = (P, None) →
       Earlier.main flag env [path] fs
       = Printed (Earlier.mainReport
                    (if bool_decide (env ≠ "") then true else flag)
                    Earlier.knownSignatures P).1)
  ∧ (Earlier.mainReport nc Earlier.knownSignatures {[21]}).1
    = noneRecognised nc
  ∧ matching {[21]} knownSignatures = [mkSignature "FTP" [21] [20]].
Proof.
  split; [done|].
  assert ((P ≠ ∅ →
     (Earlier.mainReport nc cat P).1
     = String.concat ""
         (map (fun sig =>
                 earlierLines nc (Name sig) (sortInts (Required sig))
                   (sortInts (presentOptional P (Optional sig)))
                   (sortInts (diff (Optional sig)
                                (presentOptional P (Optional sig)))))
              (matching P cat))
       +:+ (match matching P cat with [] => noneRecognised nc | _ => "" end))
  ∧ (Earlier.mainReport nc cat P).2 = (mainReport nc cat P).2)
    as [Hout Hcat].
  { destruct (decide (P = ∅)) as [->|HP]; [by split|].
    rewrite mainReport_nonempty by done. unfold Earlier.mainReport.
    rewrite size_zero_empty, bool_decide_eq_false_2 by done.
    rewrite earlier_loop_acc. cbn [orb app fst snd]. split; [|done].
    intros _. rewrite string_app_nil_l.
    assert (map (fun sig => (Earlier.printSignature nc P sig).1)
                (matching P cat)
            = map (fun sig =>
                     earlierLines nc (Name sig) (sortInts (Required sig))
                       (sortInts (presentOptional P (Optional sig)))
                       (sortInts (diff (Optional sig)
                                    (presentOptional P (Optional sig)))))
                  (matching P cat)) as ->.
    { apply map_ext. intros sig. apply earlier_printSignature_text. }
    destruct (matching P cat); cbn [negb]; [done|].
    by rewrite string_app_nil_r. }
  split; [done|]. split; [done|]. split; [|split].
  - intros flag env path fs Hparse. unfold Earlier.main. by rewrite Hparse.
  - by destruct nc; vm_compute.
  - by vm_compute.
Qed.

Lemma earlier_report_witness :
  (Earlier.mainReport true Earlier.knownSignatures {[20; 21]}).1
  = nl +:+ "▶ Possible FTP (control + data) detected: "
    +:+ "Required ports 20, 21 are present" +:+ nl.
Proof.
  destruct (earlier_report true Earlier.knownSignatures {[20; 21]})
    as (_ & Hrep & _).
  rewrite Hrep; [by vm_compute|].
  intros H. apply (f_equal size) in H. vm_compute in H. discriminate.
Defined.

(** * The catalog after a run *)

Lemma sortInts_sorted_id (l : list Z) : Sorted Z.le l → sortInts l = l.
Proof.
  intros Hs. apply (Sorted_unique Z.le); [apply sortInts_Sorted|done|].
  apply sortInts_Permutation.
Qed.

(** X19. A run leaves untouched a catalog whose required lists are
    declared in ascending order, as those of the built-in catalog are.
    Otherwise the entries that matched come out with their required ports
    sorted. *)
Theorem catalog_kept_when_sorted (nc : bool) (cat : list Signature)
    (P : gset Z) :
  (Forall (fun sig => Sorted Z.le (Required sig)) cat →
   (mainReport nc cat P).2 = cat)
  ∧ (P ≠ ∅ →
     (mainReport nc cat P).2
     = map (fun sig =>
              if hasAll P (Required sig)
              then mkSignature (Name sig) (sortInts (Required sig))
                     (Optional sig)
              else sig) cat).
Proof.
  assert (map (visit nc P) cat
          = map (fun sig =>
                   if hasAll P (Required sig)
                   then mkSignature (Name sig) (sortInts (Required sig))
                          (Optional sig)
                   else sig) cat) as Hvisit.
  { apply map_ext. intros sig. unfold visit.
    by rewrite printSignature_sig. }
  split.
  - intros Hsorted. destruct (decide (P = ∅)) as [->|HP]; [done|].
    rewrite mainReport_nonempty by done. cbn [snd]. rewrite Hvisit.
    clear Hvisit. induction Hsorted as [|sig cat Hs _ IH]; [done|].
    cbn [map]. rewrite IH. f_equal.
    destruct (hasAll P (Required sig)); [|done].
    rewrite sortInts_sorted_id by done. by destruct sig.
  - intros HP. by rewrite mainReport_nonempty.
Qed.

Lemma catalog_kept_when_sorted_witness :
  (mainReport false knownSignatures {[135; 139; 445]}).2 = knownSignatures.
Proof.
  destruct (catalog_kept_when_sorted false knownSignatures
              {[135; 139; 445]}) as [Hkept _].
  apply Hkept. unfold knownSignatures.
  repeat (constructor; [repeat constructor; done|]). constructor.
Defined.

(** * Range of the ports *)

Lemma Atoi_le_maxInt (ds : string) :
  allChars isDigit ds = true → Atoi ds ≤ maxInt.
Proof. intros Hds. rewrite Atoi_min by done. lia. Qed.

(** X20. Every port the parser returns fits an [int]: it lies between 1
    and [2^63 - 1], whatever digit runs the file holds, and the largest
    value is what a digit run too large for an [int] is read as. *)
Theorem parsed_ports_fit_int (fs : string → option file) (path : string) :
  (∀ p, p ∈ (parseNmap fs path).1 → 0 < p ≤ maxInt)
  ∧ elements (parseData "99999999999999999999/tcp open").1 = [maxInt].
Proof.
  split; [|by vm_compute].
  rewrite parseNmap_ports. destruct (fs path) as [f|]; [|set_solver].
  intros p. rewrite scan_fold.
  intros [Hp|(Hp & text & ds & _ & Hds & <-)]; [set_solver|].
  split; [done|]. apply Atoi_le_maxInt.
  by destruct Hds as (ws & rest & _ & Hd & _).
Qed.

Lemma parsed_ports_fit_int_witness :
  0 < 22 ≤ maxInt.
Proof.
  destruct (parsed_ports_fit_int
              (fun _ => Some (mkFile "22/tcp open" false)) "scan.nmap")
    as [Hfit _].
  apply Hfit. apply elem_of_elements.
  replace (elements _) with [22] by (by vm_compute). by left.
Defined.
